(** * mock-client: the dispatch-and-recording engine of [createMockClient]

    A shallow embedding of [src/index.ts] (compiled to [dist/index.js]):
    the address-keyed registries, the call log, the two invocation entry
    points [call] and [exec], and the introspection and reset operations.

    Conventions of the embedding.
    - A [ProcedurePath] is a [list string], as the TypeScript type
      [readonly string[]] says.
    - A value of type [unknown] is a [value]; arrays are string arrays,
      because the only arrays the engine looks into are the ones it casts
      to [ProcedurePath].
    - One invocation runs from its first line to its completion; it is a
      function from the client state to a [Run]: the events it caused, in
      order, its completion (a returned value or a thrown one) and the
      client state it leaves.  [Date.now()] is the argument [now].
    - Bindings come in two models: functions of their input (the first
      part), and bodies that use the client they close over ([Reentrant]);
      the first is the fragment of the second whose bodies complete at
      once ([callMock_lift]). *)

From Stdlib Require Import ZArith Ascii.
From stdpp Require Import base option list strings gmap.

Local Open Scope string_scope.
Local Open Scope list_scope.

(** ** Values *)

(** [Error] objects: what [new Error(message)] builds. *)
Record Error := mkError { message : string }.

(** The JavaScript values that reach the engine. *)
#[warnings="-register-all"]
Inductive value :=
| VUndefined
| VNull
| VBool (b : bool)
| VNum (n : Z)
| VStr (s : string)
| VArr (items : list string)
| VObj (fields : list (string * value))
| VError (e : Error).

Definition ProcedurePath := list string.

(** [a ?? b] tests its left operand against [null] and [undefined]. *)
Definition nullish (v : value) : bool :=
  match v with
  | VUndefined | VNull => true
  | _ => false
  end.

Definition coalesce (a b : value) : value :=
  if nullish a then b else a.

Infix "??" := coalesce (at level 45, right associativity).

(** [if (v)]: the falsy values are [undefined], [null], [false], [0] and
    the empty string; arrays and objects are truthy, empty or not. *)
Definition truthy (v : value) : bool :=
  match v with
  | VUndefined | VNull => false
  | VBool b => b
  | VNum n => negb (n =? 0)%Z
  | VStr s => negb (String.eqb s "")
  | VArr _ | VObj _ | VError _ => true
  end.

(** [typeof v === "object" && v !== null], for a [v] that is not an array:
    the own properties of the object, [None] for a primitive. *)
Definition properties (v : value) : option (list (string * value)) :=
  match v with
  | VObj fields => Some fields
  | VError e => Some [("message", VStr (message e))]
  | _ => None
  end.

(** Property read [o.k]: [undefined] when the property is missing. *)
Fixpoint get (fields : list (string * value)) (k : string) : value :=
  match fields with
  | [] => VUndefined
  | (k', v) :: rest => if String.eqb k' k then v else get rest k
  end.

(** ** The data types of the interface *)

Record MockCallRecord := mkRecord {
  path : ProcedurePath;
  input : value;
  timestamp : Z
}.

(** [output] is [undefined] when absent; [delay] is in milliseconds. *)
Record MockResponse := mkResponse {
  output : value;
  error : option Error;
  delay : option Z
}.

(** The empty descriptor [{}]. *)
Definition empty_response : MockResponse :=
  {| output := VUndefined; error := None; delay := None |}.

(** How a call ends: the promise is fulfilled with a value or rejected
    with the thrown one. *)
Inductive completion :=
| Return (v : value)
| Throw (e : value).

(** An implementation binding, [(input: unknown) => unknown | Promise<unknown>],
    as a function of its input.  Bindings whose body uses the client it
    closes over are modelled in [Reentrant] below. *)
Abbreviation Implementation := (value -> completion).

Record CreateMockClientOptions := mkOptions {
  opt_defaultResponse : option MockResponse;
  opt_recordCalls : option bool
}.

(** The closure of [createMockClient]: its two constants, its three
    tables, and the argument histories [mock.calls] of the two spies. *)
Record Client := mkClient {
  defaultResponse : MockResponse;
  recordCalls : bool;
  calls : list MockCallRecord;
  responses : gmap string MockResponse;
  implementations : gmap string Implementation;
  callMock_calls : list (ProcedurePath * value);
  execMock_calls : list (value * option value)
}.

(** Assignments to one component of the closure. *)
Definition set_calls (l : list MockCallRecord) (c : Client) : Client :=
  {| defaultResponse := defaultResponse c; recordCalls := recordCalls c;
     calls := l;
     responses := responses c; implementations := implementations c;
     callMock_calls := callMock_calls c; execMock_calls := execMock_calls c |}.

Definition set_responses (m : gmap string MockResponse) (c : Client) : Client :=
  {| defaultResponse := defaultResponse c; recordCalls := recordCalls c;
     calls := calls c;
     responses := m; implementations := implementations c;
     callMock_calls := callMock_calls c; execMock_calls := execMock_calls c |}.

Definition set_implementations (m : gmap string Implementation) (c : Client)
  : Client :=
  {| defaultResponse := defaultResponse c; recordCalls := recordCalls c;
     calls := calls c;
     responses := responses c; implementations := m;
     callMock_calls := callMock_calls c; execMock_calls := execMock_calls c |}.

Definition set_callMock_calls (l : list (ProcedurePath * value)) (c : Client)
  : Client :=
  {| defaultResponse := defaultResponse c; recordCalls := recordCalls c;
     calls := calls c;
     responses := responses c; implementations := implementations c;
     callMock_calls := l; execMock_calls := execMock_calls c |}.

Definition set_execMock_calls (l : list (value * option value)) (c : Client)
  : Client :=
  {| defaultResponse := defaultResponse c; recordCalls := recordCalls c;
     calls := calls c;
     responses := responses c; implementations := implementations c;
     callMock_calls := callMock_calls c; execMock_calls := l |}.

(** ** Invocations as state-passing computations *)

(** What an invocation does besides computing: it appends to the call
    log, it runs a binding, it waits on a timer. *)
Inductive event :=
| EvPush (r : MockCallRecord)
| EvImpl (key : string) (arg : value)
| EvTimeout (ms : Z).

Record Run (A : Type) := mkRun {
  trace : list event;
  result : A + value;
  final : Client
}.
Arguments mkRun {A}.
Arguments trace {A}.
Arguments result {A}.
Arguments final {A}.

Definition M (A : Type) : Type := Client -> Run A.

Definition ret {A} (a : A) : M A :=
  fun c => mkRun [] (inl a) c.

Definition throw {A} (e : value) : M A :=
  fun c => mkRun [] (inr e) c.

(** Sequencing: the second computation starts in the state the first one
    left; a thrown value ends the whole computation. *)
Definition bind {A B} (k : A -> M B) (m : M A) : M B :=
  fun c =>
    let r := m c in
    match result r with
    | inl a =>
        let r' := k a (final r) in
        mkRun (trace r ++ trace r') (result r') (final r')
    | inr e => mkRun (trace r) (inr e) (final r)
    end.

#[global] Instance M_ret : MRet M := @ret.
#[global] Instance M_bind : MBind M := @bind.

Definition gets {A} (f : Client -> A) : M A :=
  fun c => mkRun [] (inl (f c)) c.

Definition modify (f : Client -> Client) : M unit :=
  fun c => mkRun [] (inl tt) (f c).

Definition emit (ev : event) : M unit :=
  fun c => mkRun [ev] (inl tt) c.

Definition when (b : bool) (m : M unit) : M unit :=
  if b then m else ret tt.

(** The completion of a run, as the caller of the promise sees it. *)
Definition outcome (r : Run value) : completion :=
  match result r with
  | inl v => Return v
  | inr e => Throw e
  end.

(** ** createMockClient *)

Definition createMockClient (options : CreateMockClientOptions) : Client :=
  {| defaultResponse := default empty_response (opt_defaultResponse options);
     recordCalls := default true (opt_recordCalls options);
     calls := [];
     responses := ∅;
     implementations := ∅;
     callMock_calls := [];
     execMock_calls := [] |}.

(** [path.join(".")] *)
Definition pathToKey (path : ProcedurePath) : string :=
  String.concat "." path.

(** [calls.push(r)] *)
Definition push_call (r : MockCallRecord) : M unit :=
  emit (EvPush r) ;;
  modify (fun c => set_calls (calls c ++ [r]) c).

(** [impl(input)]: the binding's own completion is the call's. *)
Definition run_impl (key : string) (impl : Implementation) (arg : value) : M value :=
  emit (EvImpl key arg) ;;
  match impl arg with
  | Return v => ret v
  | Throw e => throw e
  end.

(** [if (response.delay)]: a number is truthy unless it is zero. *)
Definition delay_set (response : MockResponse) : option Z :=
  match delay response with
  | Some ms => if (ms =? 0)%Z then None else Some ms
  | None => None
  end.

Definition executeCall (path : ProcedurePath) (input : value) (now : Z) : M value :=
  rc ← gets recordCalls;
  when rc (push_call {| path := path; input := input; timestamp := now |});;
  let key := pathToKey path in
  impl ← gets (fun c => implementations c !! key);
  match impl with
  | Some impl => run_impl key impl input
  | None =>
      response ← gets (fun c => default (defaultResponse c) (responses c !! key));
      match delay_set response with
      | Some ms => emit (EvTimeout ms)
      | None => ret tt
      end;;
      match error response with
      | Some e => throw (VError e)
      | None => ret (output response)
      end
  end.

(** ** The two spied entry points *)

(** [vi.fn(f)] notes the arguments of every call in [mock.calls] before it
    runs [f]. *)
Definition spy_call (path : ProcedurePath) (input : value) : M unit :=
  modify (fun c => set_callMock_calls (callMock_calls c ++ [(path, input)]) c).

Definition spy_exec (refOrPath : value) (input : option value) : M unit :=
  modify (fun c =>
    set_execMock_calls (execMock_calls c ++ [(refOrPath, input)]) c).

(** [call: vi.fn(executeCall)] *)
Definition callMock (path : ProcedurePath) (input : value) (now : Z) : M value :=
  spy_call path input;;
  executeCall path input now.

Definition invalid_reference : value :=
  VError (mkError "Invalid procedure reference").

(** The function under [exec].  An omitted second argument is [undefined].
    The source casts [ref.$proc ?? ref.path] to [ProcedurePath] without a
    test: when that value is truthy and not an array, [executeCall] is
    entered with an ill-typed path, which is outside this embedding; the
    result is then [None]. *)
Definition exec_body (refOrPath : value) (input : option value) (now : Z)
  : option (M value) :=
  let input := default VUndefined input in
  match refOrPath with
  | VArr p => Some (executeCall p input now)
  | _ =>
      match properties refOrPath with
      | Some ref =>
          let path := get ref "$proc" ?? get ref "path" in
          if truthy path then
            match path with
            | VArr p => Some (executeCall p (get ref "input" ?? input) now)
            | _ => None
            end
          else Some (throw invalid_reference)
      | None => Some (throw invalid_reference)
      end
  end.

(** [exec: vi.fn(async (refOrPath, input) => ...)] *)
Definition execMock (refOrPath : value) (input : option value) (now : Z)
  : option (M value) :=
  body ← exec_body refOrPath input now;
  Some (spy_exec refOrPath input;; body).

(** ** Introspection, registration and reset *)

(** [getCalls: () => [...calls]] *)
Definition getCalls (c : Client) : list MockCallRecord :=
  calls c.

(** [getCallsFor: path => calls.filter(c => pathToKey(c.path) === pathToKey(path))] *)
Definition getCallsFor (p : ProcedurePath) (c : Client) : list MockCallRecord :=
  filter (fun r => pathToKey (path r) = pathToKey p) (calls c).

(** [clearCalls: () => { calls.length = 0; }] *)
Definition clearCalls (c : Client) : Client :=
  set_calls [] c.

(** [responses.set(pathToKey(path), response)] *)
Definition mockResponse (p : ProcedurePath) (response : MockResponse)
    (c : Client) : Client :=
  set_responses (<[pathToKey p := response]> (responses c)) c.

(** [implementations.set(pathToKey(path), impl)] *)
Definition mockImplementation (p : ProcedurePath) (impl : Implementation)
    (c : Client) : Client :=
  set_implementations (<[pathToKey p := impl]> (implementations c)) c.

(** [reset]: the log, both tables and both spy histories are emptied; the
    two constants of the closure are not touched. *)
Definition reset (c : Client) : Client :=
  set_execMock_calls []
    (set_callMock_calls []
      (set_implementations ∅ (set_responses ∅ (set_calls [] c)))).

(** ** Response builders *)

Definition mockOutput (out : value) : MockResponse :=
  {| output := out; error := None; delay := None |}.

(** [mockError(error: Error | string)] *)
Definition mockError (err : Error + string) : MockResponse :=
  {| output := VUndefined;
     error := Some (match err with inl e => e | inr s => mkError s end);
     delay := None |}.

Definition mockDelayed (out : value) (delayMs : Z) : MockResponse :=
  {| output := out; error := None; delay := Some delayMs |}.

(** ** createMockContext *)

Record MockProcedureContext := mkContext {
  metadata : list (string * value);
  ctx_path : ProcedurePath;
  client : Client
}.

Record ContextOptions := mkContextOptions {
  opt_path : option ProcedurePath;
  opt_metadata : option (list (string * value));
  opt_client : option Client
}.

Definition createMockContext (options : ContextOptions) : MockProcedureContext :=
  {| metadata := default [] (opt_metadata options);
     ctx_path := default ["test"; "procedure"] (opt_path options);
     client := default (createMockClient (mkOptions None None))
                       (opt_client options) |}.

(** ** Vocabulary of the statements *)

(** [k in o]: the object has a property named [k]. *)
Definition has_property (fields : list (string * value)) (k : string) : bool :=
  existsb (fun kv => String.eqb kv.1 k) fields.

(** An address: an array of segments. *)
Definition is_address (v : value) : bool :=
  match v with
  | VArr _ => true
  | _ => false
  end.

(** An object with one of the two address fields, [$proc] or [path]. *)
Definition exposes_address_field (v : value) : bool :=
  match properties v with
  | Some fields => has_property fields "$proc" || has_property fields "path"
  | None => false
  end.

(** The timers an invocation waited on, and the records it pushed. *)
Definition timeouts (tr : list event) : list Z :=
  omap (fun ev => match ev with EvTimeout ms => Some ms | _ => None end) tr.


Definition bindings_run (tr : list event) : list (string * value) :=
  omap (fun ev => match ev with EvImpl k a => Some (k, a) | _ => None end) tr.

(** A segment without the separator of [pathToKey]. *)
Fixpoint dot_free (s : string) : bool :=
  match s with
  | EmptyString => true
  | String a s' => negb (Ascii.eqb a "."%char) && dot_free s'
  end.

(** ** Test scripts

    A test drives a client through a sequence of operations of its
    interface; the completions of the invocations are collected in order.
    The last two operations are [client.call.mockClear()] and
    [client.exec.mockClear()], which [MockFn] exposes on the two spies. *)

Inductive operation :=
| OpCall (p : ProcedurePath) (i : value) (now : Z)
| OpExec (refOrPath : value) (i : option value) (now : Z)
| OpClearCalls
| OpMockResponse (p : ProcedurePath) (response : MockResponse)
| OpMockImplementation (p : ProcedurePath) (impl : Implementation)
| OpReset
| OpCallMockClear
| OpExecMockClear.

Definition step (op : operation) (c : Client) : option (list completion * Client) :=
  match op with
  | OpCall p i now =>
      let r := callMock p i now c in Some ([outcome r], final r)
  | OpExec v i now =>
      m ← execMock v i now;
      let r := m c in Some ([outcome r], final r)
  | OpClearCalls => Some ([], clearCalls c)
  | OpMockResponse p d => Some ([], mockResponse p d c)
  | OpMockImplementation p f => Some ([], mockImplementation p f c)
  | OpReset => Some ([], reset c)
  | OpCallMockClear => Some ([], set_callMock_calls [] c)
  | OpExecMockClear => Some ([], set_execMock_calls [] c)
  end.

Fixpoint run_script (ops : list operation) (c : Client)
  : option (list completion * Client) :=
  match ops with
  | [] => Some ([], c)
  | op :: rest =>
      '(outs, c') ← step op c;
      '(outs', c'') ← run_script rest c';
      Some (outs ++ outs', c'')
  end.

(** Two clients that agree on everything an invocation consults to
    resolve a behaviour; the second one does not record and its log is
    empty. *)
Definition flag_sim (c_on c_off : Client) : Prop :=
  defaultResponse c_off = defaultResponse c_on ∧
  responses c_off = responses c_on ∧
  implementations c_off = implementations c_on ∧
  recordCalls c_off = false ∧
  calls c_off = [].


(** What resolving the descriptor [d] gives: its error if it has one,
    else its output. *)
Definition descriptor_completion (d : MockResponse) : completion :=
  match error d with
  | Some e => Throw (VError e)
  | None => Return (output d)
  end.

(** ** The call log as shared objects

    In the source the log is one array object, [const calls = []], whose
    elements are references to record objects; [push] allocates the record
    and appends its reference, and [[...calls]] allocates a second array
    holding the same references.  This is the store that makes the sharing
    explicit. *)

Module Heap.

Definition loc := nat.

Record store := mkStore {
  arrays : gmap loc (list loc);
  records : gmap loc MockCallRecord;
  next : loc
}.

(** The log of an engine: the array [log] in [heap]. *)
Record engine := mkEngine {
  log : loc;
  heap : store
}.

Definition alloc_array (items : list loc) (h : store) : loc * store :=
  (next h,
   {| arrays := <[next h := items]> (arrays h);
      records := records h;
      next := S (next h) |}).

Definition alloc_record (r : MockCallRecord) (h : store) : loc * store :=
  (next h,
   {| arrays := arrays h;
      records := <[next h := r]> (records h);
      next := S (next h) |}).

(** [const calls: MockCallRecord[] = []] *)
Definition create : engine :=
  let '(l, h) := alloc_array [] {| arrays := ∅; records := ∅; next := 0 |} in
  {| log := l; heap := h |}.

Definition items_of (h : store) (a : loc) : list loc :=
  default [] (arrays h !! a).

(** [calls.push({ path, input, timestamp })] *)
Definition push (r : MockCallRecord) (e : engine) : engine :=
  let '(l, h) := alloc_record r (heap e) in
  {| log := log e;
     heap := {| arrays := <[log e := items_of h (log e) ++ [l]]> (arrays h);
                records := records h;
                next := next h |} |}.

(** [[...calls]]: the reference of the new array, and the store. *)
Definition getCalls (e : engine) : loc * engine :=
  let '(a, h) := alloc_array (items_of (heap e) (log e)) (heap e) in
  (a, {| log := log e; heap := h |}).

(** What a test sees when it reads the array [a]: its records, in order. *)
Definition read (h : store) (a : loc) : list (option MockCallRecord) :=
  (fun l => records h !! l) <$> items_of h a.

(** What a holder of references can do to the objects behind them:
    give an array any other contents (assignment to an index or to
    [length], [push], [pop], [splice], [sort]), give a record any other
    field values. *)
Inductive mutation :=
| SetItems (a : loc) (items : list loc)
| SetRecord (l : loc) (r : MockCallRecord).

Definition mutate (m : mutation) (h : store) : store :=
  match m with
  | SetItems a items =>
      {| arrays := <[a := items]> (arrays h);
         records := records h; next := next h |}
  | SetRecord l r =>
      {| arrays := arrays h;
         records := <[l := r]> (records h); next := next h |}
  end.

Definition mutate_engine (ms : list mutation) (e : engine) : engine :=
  {| log := log e; heap := foldl (fun h m => mutate m h) (heap e) ms |}.

(** A mutation of the array [a] itself. *)
Definition on_array (a : loc) (m : mutation) : Prop :=
  match m with
  | SetItems a' _ => a' = a
  | SetRecord _ _ => False
  end.

(** A mutation of the value [getCalls] returned: of the array [a] or of
    a record it holds. *)
Definition on_returned (h : store) (a : loc) (m : mutation) : Prop :=
  match m with
  | SetItems a' _ => a' = a
  | SetRecord l _ => l ∈ items_of h a
  end.

(** [next] is fresh: the log array and the records it refers to were
    allocated before. *)
Definition wf (e : engine) : Prop :=
  log e < next (heap e) ∧
  ∀ l, l ∈ items_of (heap e) (log e) → l < next (heap e).

(** The store holds the log of the client [c]. *)
Definition represents (e : engine) (c : Client) : Prop :=
  read (heap e) (log e) = Some <$> calls c.

(** [calls.length = 0]: the live array is emptied in place. *)
Definition clearCalls (e : engine) : engine :=
  {| log := log e;
     heap := {| arrays := <[log e := []]> (arrays (heap e));
                records := records (heap e);
                next := next (heap e) |} |}.

End Heap.

(** ** Bindings that use the client

    A binding is a closure: while [impl(input)] runs (line 86 of the
    source, after the push) it can wait on timers, read the log and the spy
    histories, register and clear, and invoke the client again.  Here the
    body of a binding is a [program] over the interface of the client, and
    the engine is the one above with such bindings in [implementations].
    A nested invocation runs the engine again; [fuel] bounds the depth of
    nesting, and a run that needs more is [None]. *)

Module Reentrant.

Inductive program :=
| PDone (r : completion)
| PWait (ms : Z) (k : program)
| PGetCalls (k : list MockCallRecord -> program)
| PGetCallsFor (p : ProcedurePath) (k : list MockCallRecord -> program)
| PGetSpies
    (k : list (ProcedurePath * value) -> list (value * option value) -> program)
| PClearCalls (k : program)
| PMockResponse (p : ProcedurePath) (d : MockResponse) (k : program)
| PMockImplementation (p : ProcedurePath) (f : value -> program) (k : program)
| PReset (k : program)
| PCallMockClear (k : program)
| PExecMockClear (k : program)
| PCall (p : ProcedurePath) (i : value) (now : Z) (k : completion -> program)
| PExec (v : value) (i : option value) (now : Z) (k : completion -> program).

Abbreviation Binding := (value -> program).

Record Client := mkClient {
  defaultResponse : MockResponse;
  recordCalls : bool;
  calls : list MockCallRecord;
  responses : gmap string MockResponse;
  implementations : gmap string Binding;
  callMock_calls : list (ProcedurePath * value);
  execMock_calls : list (value * option value)
}.

Definition set_calls (l : list MockCallRecord) (c : Client) : Client :=
  {| defaultResponse := defaultResponse c; recordCalls := recordCalls c;
     calls := l;
     responses := responses c; implementations := implementations c;
     callMock_calls := callMock_calls c; execMock_calls := execMock_calls c |}.

Definition set_responses (m : gmap string MockResponse) (c : Client) : Client :=
  {| defaultResponse := defaultResponse c; recordCalls := recordCalls c;
     calls := calls c;
     responses := m; implementations := implementations c;
     callMock_calls := callMock_calls c; execMock_calls := execMock_calls c |}.

Definition set_implementations (m : gmap string Binding) (c : Client) : Client :=
  {| defaultResponse := defaultResponse c; recordCalls := recordCalls c;
     calls := calls c;
     responses := responses c; implementations := m;
     callMock_calls := callMock_calls c; execMock_calls := execMock_calls c |}.

Definition set_callMock_calls (l : list (ProcedurePath * value)) (c : Client)
  : Client :=
  {| defaultResponse := defaultResponse c; recordCalls := recordCalls c;
     calls := calls c;
     responses := responses c; implementations := implementations c;
     callMock_calls := l; execMock_calls := execMock_calls c |}.

Definition set_execMock_calls (l : list (value * option value)) (c : Client)
  : Client :=
  {| defaultResponse := defaultResponse c; recordCalls := recordCalls c;
     calls := calls c;
     responses := responses c; implementations := implementations c;
     callMock_calls := callMock_calls c; execMock_calls := l |}.

Definition createMockClient (options : CreateMockClientOptions) : Client :=
  {| defaultResponse := default empty_response (opt_defaultResponse options);
     recordCalls := default true (opt_recordCalls options);
     calls := [];
     responses := ∅;
     implementations := ∅;
     callMock_calls := [];
     execMock_calls := [] |}.

Definition getCalls (c : Client) : list MockCallRecord :=
  calls c.

Definition getCallsFor (p : ProcedurePath) (c : Client) : list MockCallRecord :=
  filter (fun r => pathToKey (path r) = pathToKey p) (calls c).

Definition clearCalls (c : Client) : Client :=
  set_calls [] c.

Definition mockResponse (p : ProcedurePath) (response : MockResponse)
    (c : Client) : Client :=
  set_responses (<[pathToKey p := response]> (responses c)) c.

Definition mockImplementation (p : ProcedurePath) (impl : Binding)
    (c : Client) : Client :=
  set_implementations (<[pathToKey p := impl]> (implementations c)) c.

Definition reset (c : Client) : Client :=
  set_execMock_calls []
    (set_callMock_calls []
      (set_implementations ∅ (set_responses ∅ (set_calls [] c)))).

(** A finished invocation: its events in order, its completion, the
    client it leaves. *)
Record Run := mkRun {
  trace : list event;
  result : completion;
  final : Client
}.

(** The run [r], after the events [tr]. *)
Definition after (tr : list event) (r : Run) : Run :=
  {| trace := tr ++ trace r; result := result r; final := final r |}.

(** The body of a binding, run on the client [c]; [call] and [exec] are
    the two entry points of the client the binding closes over. *)
Fixpoint run_program
    (call : ProcedurePath -> value -> Z -> Client -> option Run)
    (exec : value -> option value -> Z -> Client -> option Run)
    (prog : program) (c : Client) {struct prog} : option Run :=
  match prog with
  | PDone r => Some {| trace := []; result := r; final := c |}
  | PWait ms k =>
      r ← run_program call exec k c;
      Some (after [EvTimeout ms] r)
  | PGetCalls k => run_program call exec (k (getCalls c)) c
  | PGetCallsFor p k => run_program call exec (k (getCallsFor p c)) c
  | PGetSpies k =>
      run_program call exec (k (callMock_calls c) (execMock_calls c)) c
  | PClearCalls k => run_program call exec k (clearCalls c)
  | PMockResponse p d k => run_program call exec k (mockResponse p d c)
  | PMockImplementation p f k =>
      run_program call exec k (mockImplementation p f c)
  | PReset k => run_program call exec k (reset c)
  | PCallMockClear k => run_program call exec k (set_callMock_calls [] c)
  | PExecMockClear k => run_program call exec k (set_execMock_calls [] c)
  | PCall p i now k =>
      r ← call p i now c;
      r' ← run_program call exec (k (result r)) (final r);
      Some (after (trace r) r')
  | PExec v i now k =>
      r ← exec v i now c;
      r' ← run_program call exec (k (result r)) (final r);
      Some (after (trace r) r')
  end.

(** [vi.fn] notes the arguments, then runs the function. *)
Definition spied_call (path : ProcedurePath) (input : value) (c : Client)
  : Client :=
  set_callMock_calls (callMock_calls c ++ [(path, input)]) c.

Definition spied_exec (refOrPath : value) (input : option value) (c : Client)
  : Client :=
  set_execMock_calls (execMock_calls c ++ [(refOrPath, input)]) c.

(** The function under [exec], over the [executeCall] it delegates to.
    As above, a truthy address field that is not an array is outside the
    embedding ([None]). *)
Definition exec_body
    (executeCall : ProcedurePath -> value -> Z -> Client -> option Run)
    (refOrPath : value) (input : option value) (now : Z) (c : Client)
  : option Run :=
  let input := default VUndefined input in
  match refOrPath with
  | VArr p => executeCall p input now c
  | _ =>
      match properties refOrPath with
      | Some ref =>
          let path := get ref "$proc" ?? get ref "path" in
          if truthy path then
            match path with
            | VArr p => executeCall p (get ref "input" ?? input) now c
            | _ => None
            end
          else Some {| trace := []; result := Throw invalid_reference; final := c |}
      | None =>
          Some {| trace := []; result := Throw invalid_reference; final := c |}
      end
  end.

Fixpoint executeCall (fuel : nat) (path : ProcedurePath) (input : value)
    (now : Z) (c : Client) {struct fuel} : option Run :=
  match fuel with
  | O => None
  | S n =>
      let rec := {| path := path; input := input; timestamp := now |} in
      let pushed := if recordCalls c then [EvPush rec] else [] in
      let c := if recordCalls c then set_calls (calls c ++ [rec]) c else c in
      let key := pathToKey path in
      match implementations c !! key with
      | Some impl =>
          r ← run_program
                (fun p i t c' => executeCall n p i t (spied_call p i c'))
                (fun v i t c' => exec_body (executeCall n) v i t (spied_exec v i c'))
                (impl input) c;
          Some (after (pushed ++ [EvImpl key input]) r)
      | None =>
          let response := default (defaultResponse c) (responses c !! key) in
          Some {| trace :=
                    pushed ++
                    match delay_set response with
                    | Some ms => [EvTimeout ms]
                    | None => []
                    end;
                  result :=
                    match error response with
                    | Some e => Throw (VError e)
                    | None => Return (output response)
                    end;
                  final := c |}
      end
  end.

Definition callMock (fuel : nat) (path : ProcedurePath) (input : value)
    (now : Z) (c : Client) : option Run :=
  executeCall fuel path input now (spied_call path input c).

Definition execMock (fuel : nat) (refOrPath : value) (input : option value)
    (now : Z) (c : Client) : option Run :=
  exec_body (executeCall fuel) refOrPath input now (spied_exec refOrPath input c).

(** A body that never reads the call log, with [getCalls] or with
    [getCallsFor].  (It may read the spy histories, which do not depend on
    the recording flag.) *)
Inductive log_blind : program -> Prop :=
| blind_done r : log_blind (PDone r)
| blind_wait ms k : log_blind k -> log_blind (PWait ms k)
| blind_spies k : (forall a b, log_blind (k a b)) -> log_blind (PGetSpies k)
| blind_clearCalls k : log_blind k -> log_blind (PClearCalls k)
| blind_mockResponse p d k : log_blind k -> log_blind (PMockResponse p d k)
| blind_mockImplementation p f k :
    (forall v, log_blind (f v)) -> log_blind k ->
    log_blind (PMockImplementation p f k)
| blind_reset k : log_blind k -> log_blind (PReset k)
| blind_callMockClear k : log_blind k -> log_blind (PCallMockClear k)
| blind_execMockClear k : log_blind k -> log_blind (PExecMockClear k)
| blind_call p i now k : (forall r, log_blind (k r)) -> log_blind (PCall p i now k)
| blind_exec v i now k : (forall r, log_blind (k r)) -> log_blind (PExec v i now k).

(** Every registered binding is blind to the log, on every input. *)
Definition blind_registry (c : Client) : Prop :=
  forall key (f : Binding),
    implementations c !! key = Some f -> forall v, log_blind (f v).

(** The same client on an engine that does not record: same settings,
    tables and spy histories, [recordCalls] false, and the empty log such
    an engine has. *)
Definition without_recording (c : Client) : Client :=
  {| defaultResponse := defaultResponse c; recordCalls := false;
     calls := [];
     responses := responses c; implementations := implementations c;
     callMock_calls := callMock_calls c; execMock_calls := execMock_calls c |}.

(** A non-recording engine whose log is empty. *)
Definition silent (c : Client) : Prop :=
  recordCalls c = false /\ calls c = [].

(** The events of an invocation other than the pushes to the log. *)
Definition effects (tr : list event) : list event :=
  omap (fun ev => match ev with EvPush _ => None | _ => Some ev end) tr.

(** Two runs that differ at most in the log: both lack a result in the
    embedding, or both complete the same way after the same effects and
    leave clients that differ as a recording and a non-recording engine
    do. *)
Definition same_but_log (on off : option Run) : Prop :=
  match on, off with
  | Some r_on, Some r_off =>
      result r_off = result r_on /\
      effects (trace r_off) = effects (trace r_on) /\
      final r_off = without_recording (final r_on) /\
      blind_registry (final r_on)
  | None, None => True
  | _, _ => False
  end.

End Reentrant.

(** A client of the first model is a client of this one: a binding that
    is a function of its input is a body that completes at once. *)
Definition lift_binding (f : Implementation) : Reentrant.Binding :=
  fun v => Reentrant.PDone (f v).

Definition lift (c : Client) : Reentrant.Client :=
  {| Reentrant.defaultResponse := defaultResponse c;
     Reentrant.recordCalls := recordCalls c;
     Reentrant.calls := calls c;
     Reentrant.responses := responses c;
     Reentrant.implementations := lift_binding <$> implementations c;
     Reentrant.callMock_calls := callMock_calls c;
     Reentrant.execMock_calls := execMock_calls c |}.

Definition lift_run (r : Run value) : Reentrant.Run :=
  {| Reentrant.trace := trace r;
     Reentrant.result := outcome r;
     Reentrant.final := lift (final r) |}.

(** * Properties *)

(** ** What one invocation computes *)

Lemma run_eta {A} (r : Run A) : mkRun (trace r) (result r) (final r) = r.
Proof. by destruct r. Qed.

(** [executeCall] in one equation: the state it leaves, the events in the
    order they happen, and the completion. *)
Lemma executeCall_run p i now c :
  executeCall p i now c =
  let rec := {| path := p; input := i; timestamp := now |} in
  let c' := if recordCalls c then set_calls (calls c ++ [rec]) c else c in
  let pushed := if recordCalls c then [EvPush rec] else [] in
  match implementations c !! pathToKey p with
  | Some f =>
      mkRun (pushed ++ [EvImpl (pathToKey p) i])
            (match f i with Return v => inl v | Throw e => inr e end) c'
  | None =>
      let d := default (defaultResponse c) (responses c !! pathToKey p) in
      mkRun (pushed ++
               match delay_set d with Some ms => [EvTimeout ms] | None => [] end)
            (match error d with Some e => inr (VError e) | None => inl (output d) end)
            c'
  end.
Proof.
  unfold executeCall, mbind, M_bind, bind, gets, when, push_call, run_impl,
    emit, modify, mret, M_ret, ret, throw, mbind, M_bind, bind.
  destruct c as [d rc cs rs ims cm em]; simpl.
  destruct rc; simpl.
  - destruct (ims !! pathToKey p) as [f|]; simpl.
    + destruct (f i); reflexivity.
    + destruct (delay_set _), (error _); reflexivity.
  - destruct (ims !! pathToKey p) as [f|]; simpl.
    + destruct (f i); reflexivity.
    + destruct (delay_set _), (error _); reflexivity.
Qed.

Lemma bind_modify {A} (f : Client → Client) (m : M A) c :
  (modify f ≫= λ _, m) c = m (f c).
Proof.
  unfold mbind, M_bind, bind, modify. simpl. apply run_eta.
Qed.

(** The spy around [executeCall] only adds to its own history. *)
Lemma callMock_run p i now c :
  callMock p i now c =
  executeCall p i now (set_callMock_calls (callMock_calls c ++ [(p, i)]) c).
Proof.
  unfold callMock, spy_call. by rewrite bind_modify.
Qed.

Lemma execMock_run v i now body c :
  exec_body v i now = Some body →
  ∃ m, execMock v i now = Some m ∧
       m c = body (set_execMock_calls (execMock_calls c ++ [(v, i)]) c).
Proof.
  intros Hb. unfold execMock. rewrite Hb. simpl.
  eexists; split; [reflexivity|].
  unfold spy_exec. by rewrite bind_modify.
Qed.

Lemma outcome_mkRun tr (res : value + value) c :
  outcome (mkRun tr res c) =
  match res with inl v => Return v | inr e => Throw e end.
Proof. reflexivity. Qed.

(** The completion of [call] is a function of the two tables, the default
    descriptor and the arguments; the log, the flag and the spies play no
    part in it. *)
Lemma callMock_outcome p i now c :
  outcome (callMock p i now c) =
  match implementations c !! pathToKey p with
  | Some f => f i
  | None =>
      let d := default (defaultResponse c) (responses c !! pathToKey p) in
      match error d with Some e => Throw (VError e) | None => Return (output d) end
  end.
Proof.
  rewrite callMock_run, executeCall_run. simpl.
  destruct (implementations c !! pathToKey p) as [f|].
  - rewrite outcome_mkRun. by destruct (f i).
  - simpl. rewrite outcome_mkRun. by destruct (error _).
Qed.

Lemma callMock_trace p i now c :
  trace (callMock p i now c) =
  (if recordCalls c
   then [EvPush {| path := p; input := i; timestamp := now |}] else []) ++
  match implementations c !! pathToKey p with
  | Some f => [EvImpl (pathToKey p) i]
  | None =>
      match delay_set (default (defaultResponse c) (responses c !! pathToKey p)) with
      | Some ms => [EvTimeout ms]
      | None => []
      end
  end.
Proof.
  rewrite callMock_run, executeCall_run. simpl.
  by destruct (implementations c !! pathToKey p).
Qed.

Lemma callMock_final p i now c :
  final (callMock p i now c) =
  let c1 := set_callMock_calls (callMock_calls c ++ [(p, i)]) c in
  if recordCalls c
  then set_calls (calls c ++ [{| path := p; input := i; timestamp := now |}]) c1
  else c1.
Proof.
  rewrite callMock_run, executeCall_run. simpl.
  by destruct (implementations c !! pathToKey p).
Qed.

(** ** The scenarios of the README, run *)

Example scenario_output :
  let c := mockResponse ["fs"; "read"] (mockOutput (VStr "file contents"))
             (createMockClient (mkOptions None None)) in
  let i := VObj [("path", VStr "/test.txt")] in
  let r := callMock ["fs"; "read"] i 100 c in
  outcome r = Return (VStr "file contents") ∧
  getCalls (final r) = [{| path := ["fs"; "read"]; input := i; timestamp := 100 |}].
Proof. by split. Qed.

Example scenario_error :
  let c := mockResponse ["fs"; "read"] (mockError (inr "ENOENT"))
             (createMockClient (mkOptions None None)) in
  outcome (callMock ["fs"; "read"] (VObj []) 100 c) =
  Throw (VError (mkError "ENOENT")).
Proof. reflexivity. Qed.

Example scenario_other_path :
  let c := mockResponse ["fs"; "read"] (mockOutput (VStr "content"))
             (createMockClient (mkOptions None None)) in
  outcome (callMock ["fs"; "readFile"] (VObj []) 100 c) = Return VUndefined ∧
  outcome (callMock ["read"; "fs"] (VObj []) 100 c) = Return VUndefined ∧
  outcome (callMock ["fs"; "read"] (VObj []) 100 c) = Return (VStr "content").
Proof. by repeat split. Qed.

Example scenario_default_response :
  let c := createMockClient
             (mkOptions (Some (mockOutput (VObj [("success", VBool true)]))) None) in
  outcome (callMock ["any"; "procedure"] (VObj []) 100 c) =
  Return (VObj [("success", VBool true)]).
Proof. reflexivity. Qed.

Example scenario_delayed :
  let c := mockResponse ["slow"] (mockDelayed (VNum 1) 250)
             (createMockClient (mkOptions None None)) in
  let r := callMock ["slow"] VNull 100 c in
  outcome r = Return (VNum 1) ∧ timeouts (trace r) = [250%Z].
Proof. by split. Qed.

Example scenario_exec_reference :
  let c := createMockClient (mkOptions None None) in
  let i := VObj [("path", VStr "/a")] in
  let ref := VObj [("$proc", VArr ["fs"; "read"]); ("input", i)] in
  ∃ m, execMock ref None 100 = Some m ∧
       outcome (m c) = outcome (callMock ["fs"; "read"] i 100 c) ∧
       getCalls (final (m c)) = getCalls (final (callMock ["fs"; "read"] i 100 c)).
Proof. eexists. by repeat split. Qed.

Example scenario_no_recording :
  let c := createMockClient (mkOptions None (Some false)) in
  getCalls (final (callMock ["test"] (VObj []) 100 c)) = [].
Proof. reflexivity. Qed.

Example scenario_context_defaults :
  let ctx := createMockContext (mkContextOptions None None None) in
  ctx_path ctx = ["test"; "procedure"] ∧ metadata ctx = [] ∧
  getCalls (client ctx) = [].
Proof. by repeat split. Qed.

(** ** Recording *)



(** ** Resolution order *)



(** C4. A Response Descriptor with both an output and an error, resolved
    for its address (no binding stands before it), makes every invocation
    of that address fail with exactly that error object; the output is
    never the completion. *)
Theorem error_wins_over_output p out e ms i now c :
  responses c !! pathToKey p =
    Some {| output := out; error := Some e; delay := ms |} →
  implementations c !! pathToKey p = None →
  outcome (callMock p i now c) = Throw (VError e) ∧
  outcome (callMock p i now c) ≠ Return out.
Proof.
  intros Hd Hf. rewrite callMock_outcome, Hf, Hd. simpl. by split.
Qed.

Lemma error_wins_over_output_witness :
  let p := ["fs"; "read"] in
  let d := {| output := VStr "file contents"; error := Some (mkError "ENOENT");
              delay := None |} in
  let c := mockResponse p d (createMockClient (mkOptions None None)) in
  outcome (callMock p (VStr "/a") 3 c) = Throw (VError (mkError "ENOENT")) ∧
  outcome (callMock p (VStr "/a") 3 c) ≠ Return (VStr "file contents").
Proof.
  intros p d c.
  apply (error_wins_over_output p (VStr "file contents") (mkError "ENOENT")
           None (VStr "/a") 3 c); reflexivity.
Defined.

(** ** Invocation by reference *)

Lemma get_missing fields k :
  has_property fields k = false → get fields k = VUndefined.
Proof.
  induction fields as [|[k' v] rest IH]; simpl; [done|].
  destruct (String.eqb k' k); simpl; [done|exact IH].
Qed.

(** What [exec] does with a reference object whose address field holds an
    address: it delegates to [executeCall], with [ref.input ?? input]. *)
Lemma exec_body_reference fields p second now :
  get fields "$proc" ?? get fields "path" = VArr p →
  exec_body (VObj fields) second now =
  Some (executeCall p (get fields "input" ?? default VUndefined second) now).
Proof.
  intros Hp. unfold exec_body. simpl. by rewrite Hp.
Qed.

(** C5, as stated, fails: the reference object carries the address
    [["fs","read"]] and an [input] field holding [null]; [exec(ref, 7)]
    delegates with the second argument, 7, and the record in the log shows
    it. *)
Lemma embedded_null_input_is_overridden :
  let fields := [("$proc", VArr ["fs"; "read"]); ("input", VNull)] in
  let c := createMockClient (mkOptions None None) in
  get fields "$proc" ?? get fields "path" = VArr ["fs"; "read"] ∧
  has_property fields "input" = true ∧
  get fields "input" = VNull ∧
  ∃ m, execMock (VObj fields) (Some (VNum 7)) 0 = Some m ∧
       getCalls (final (m c)) =
         [{| path := ["fs"; "read"]; input := VNum 7; timestamp := 0 |}] ∧
       getCalls (final (m c)) ≠
         getCalls (final (callMock ["fs"; "read"] VNull 0 c)).
Proof.
  repeat split; try reflexivity.
  eexists. split; [reflexivity|]. split; [reflexivity|].
  vm_compute. discriminate.
Qed.

(** C5, amended. For a reference object carrying an address, [exec]
    delegates to [executeCall] with the embedded input whenever that input
    is neither [null] nor [undefined], whatever the second argument is;
    when the embedded input is [null] or [undefined], the second argument
    is used ([undefined] if it was omitted). *)
Theorem embedded_input_precedence fields p second now c :
  get fields "$proc" ?? get fields "path" = VArr p →
  ∃ m, execMock (VObj fields) second now = Some m ∧
       let c1 := set_execMock_calls
                   (execMock_calls c ++ [(VObj fields, second)]) c in
       (nullish (get fields "input") = false →
        m c = executeCall p (get fields "input") now c1) ∧
       (nullish (get fields "input") = true →
        m c = executeCall p (default VUndefined second) now c1).
Proof.
  intros Hp.
  destruct (execMock_run (VObj fields) second now _ c
              (exec_body_reference fields p second now Hp)) as (m & Hm & Hrun).
  exists m. split; [exact Hm|]. simpl.
  rewrite Hrun. unfold coalesce.
  split; intros Hn; by rewrite Hn.
Qed.

Lemma embedded_input_precedence_witness :
  let fields := [("path", VArr ["fs"; "read"]);
                 ("input", VObj [("path", VStr "/a")])] in
  let c := createMockClient (mkOptions None None) in
  ∃ m, execMock (VObj fields) (Some (VNum 7)) 0 = Some m ∧
       let c1 := set_execMock_calls
                   (execMock_calls c ++ [(VObj fields, Some (VNum 7))]) c in
       (nullish (get fields "input") = false →
        m c = executeCall ["fs"; "read"] (get fields "input") 0 c1) ∧
       (nullish (get fields "input") = true →
        m c = executeCall ["fs"; "read"] (default VUndefined (Some (VNum 7))) 0 c1).
Proof.
  intros fields c.
  apply (embedded_input_precedence fields ["fs"; "read"] (Some (VNum 7)) 0 c).
  reflexivity.
Defined.

(** C7. An argument that is neither an address nor an object with a
    [$proc] or [path] field makes [exec] fail with the engine's own
    "Invalid procedure reference" error; the invocation pushes nothing and
    leaves the call log as it was.  (The spy around [exec] has noted the
    arguments, as for every invocation.) *)
Theorem malformed_reference_not_recorded v i now c :
  is_address v = false →
  exposes_address_field v = false →
  ∃ m, execMock v i now = Some m ∧
       outcome (m c) = Throw invalid_reference ∧
       trace (m c) = [] ∧
       getCalls (final (m c)) = getCalls c ∧
       execMock_calls (final (m c)) = execMock_calls c ++ [(v, i)].
Proof.
  intros Ha He.
  assert (Hb : exec_body v i now = Some (throw invalid_reference)).
  { unfold exec_body, exposes_address_field in *.
    destruct v; try discriminate Ha; try reflexivity; simpl in *.
    apply orb_false_elim in He as [H1 H2].
    by rewrite (get_missing _ _ H1), (get_missing _ _ H2). }
  destruct (execMock_run v i now _ c Hb) as (m & Hm & Hrun).
  exists m. split; [exact Hm|]. by rewrite Hrun.
Qed.

Lemma malformed_reference_not_recorded_witness :
  let c := createMockClient (mkOptions None None) in
  ∃ m, execMock (VNum 42) None 0 = Some m ∧
       outcome (m c) = Throw invalid_reference ∧
       trace (m c) = [] ∧
       getCalls (final (m c)) = getCalls c ∧
       execMock_calls (final (m c)) = execMock_calls c ++ [(VNum 42, None)].
Proof.
  intros c.
  apply (malformed_reference_not_recorded (VNum 42) None 0 c); reflexivity.
Defined.

(** ** Scripts: what every operation preserves *)

Lemma executeCall_final p i now c :
  final (executeCall p i now c) =
  if recordCalls c
  then set_calls (calls c ++ [{| path := p; input := i; timestamp := now |}]) c
  else c.
Proof.
  rewrite executeCall_run. simpl.
  by destruct (implementations c !! pathToKey p).
Qed.

Lemma executeCall_outcome p i now c :
  outcome (executeCall p i now c) =
  match implementations c !! pathToKey p with
  | Some f => f i
  | None =>
      let d := default (defaultResponse c) (responses c !! pathToKey p) in
      match error d with Some e => Throw (VError e) | None => Return (output d) end
  end.
Proof.
  rewrite executeCall_run. simpl.
  destruct (implementations c !! pathToKey p) as [f|].
  - rewrite outcome_mkRun. by destruct (f i).
  - rewrite outcome_mkRun. by destruct (error _).
Qed.

(** [exec] either delegates to [executeCall] or throws its own error. *)
Lemma exec_body_cases v i now body :
  exec_body v i now = Some body →
  (∃ p i', body = executeCall p i' now) ∨ body = throw invalid_reference.
Proof.
  unfold exec_body. intros H.
  destruct v; simpl in H; simplify_eq; eauto.
  destruct (truthy _); simplify_eq; eauto.
  destruct (_ ?? _); simplify_eq; eauto.
Qed.

(** The one case the embedding leaves out: an object whose address field
    holds a truthy value that is not an array. *)
Lemma exec_body_None v i now :
  exec_body v i now = None ↔
  ∃ fields,
    is_address v = false ∧
    properties v = Some fields ∧
    truthy (get fields "$proc" ?? get fields "path") = true ∧
    is_address (get fields "$proc" ?? get fields "path") = false.
Proof.
  unfold exec_body. split.
  - intros H. destruct v; simpl in H; try discriminate H.
    exists fields. destruct (truthy _) eqn:Ht; [|discriminate H].
    destruct (_ ?? _); try discriminate H; by repeat split.
  - intros (fields & Ha & Hp & Ht & Hn).
    destruct v; try discriminate Ha; try discriminate Hp; simpl in *.
    + injection Hp as ->. rewrite Ht. by destruct (_ ?? _).
    + injection Hp as <-. discriminate Ht.
Qed.

Lemma execMock_cases v i now m :
  execMock v i now = Some m →
  let spied c := set_execMock_calls (execMock_calls c ++ [(v, i)]) c in
  (∃ p i', ∀ c, m c = executeCall p i' now (spied c)) ∨
  (∀ c, m c = mkRun [] (inr invalid_reference) (spied c)).
Proof.
  intros Hm spied.
  destruct (exec_body v i now) as [body|] eqn:Hb;
    [|unfold execMock in Hm; rewrite Hb in Hm; discriminate].
  destruct (exec_body_cases _ _ _ _ Hb) as [(p & i' & ->)| ->].
  - left. exists p, i'. intros c.
    destruct (execMock_run _ _ _ _ c Hb) as (m' & Hm' & Hrun).
    rewrite Hm in Hm'. injection Hm' as ->. exact Hrun.
  - right. intros c.
    destruct (execMock_run _ _ _ _ c Hb) as (m' & Hm' & Hrun).
    rewrite Hm in Hm'. injection Hm' as ->. by rewrite Hrun.
Qed.

(** No operation of the interface assigns the two constants of the
    closure. *)
Lemma step_constants op c outs c' :
  step op c = Some (outs, c') →
  defaultResponse c' = defaultResponse c ∧ recordCalls c' = recordCalls c.
Proof.
  destruct op; cbn [step]; intros H; simplify_eq; try done.
  - rewrite callMock_final. simpl. by destruct (recordCalls c) eqn:E.
  - destruct (execMock refOrPath i now) as [m|] eqn:Hm;
      cbn [mbind option_bind] in H; simplify_eq.
    destruct (execMock_cases _ _ _ _ Hm) as [(p & i' & Hc)|Hc]; rewrite Hc.
    + rewrite executeCall_final. simpl. by destruct (recordCalls c) eqn:E.
    + done.
Qed.

Lemma run_script_cons op rest c :
  run_script (op :: rest) c =
  match step op c with
  | Some (o1, c1) =>
      match run_script rest c1 with
      | Some (o2, c2) => Some (o1 ++ o2, c2)
      | None => None
      end
  | None => None
  end.
Proof.
  cbn [run_script]. destruct (step op c) as [[o1 c1]|]; [|done].
  cbn [mbind option_bind]. by destruct (run_script rest c1) as [[o2 c2]|].
Qed.

Lemma run_script_constants ops c outs c' :
  run_script ops c = Some (outs, c') →
  defaultResponse c' = defaultResponse c ∧ recordCalls c' = recordCalls c.
Proof.
  revert c outs c'.
  induction ops as [|op rest IH]; intros c outs c' H;
    [simpl in H; by simplify_eq|].
  rewrite run_script_cons in H.
  destruct (step op c) as [[o1 c1]|] eqn:H1; simplify_eq.
  destruct (run_script rest c1) as [[o2 c2]|] eqn:H2; simplify_eq.
  destruct (step_constants _ _ _ _ H1) as [Hd1 Hr1].
  destruct (IH _ _ _ H2) as [Hd2 Hr2].
  split; congruence.
Qed.

(** One operation run on two clients related by [flag_sim]: the same
    completions, and the clients stay related. *)
Lemma step_sim op c_on c_off outs c_on' :
  flag_sim c_on c_off →
  step op c_on = Some (outs, c_on') →
  ∃ c_off', step op c_off = Some (outs, c_off') ∧ flag_sim c_on' c_off'.
Proof.
  intros (Hd & Hr & Hi & Hrc & Hc) H.
  destruct op; cbn [step] in *; simplify_eq.
  - eexists. split.
    + f_equal. f_equal. f_equal.
      rewrite !callMock_outcome. by rewrite Hd, Hr, Hi.
    + rewrite !callMock_final. simpl. rewrite Hrc.
      destruct (recordCalls c_on); by repeat split.
  - destruct (execMock refOrPath i now) as [m|] eqn:Hm;
      cbn [mbind option_bind] in *; simplify_eq.
    destruct (execMock_cases _ _ _ _ Hm) as [(p & i' & Hrun)|Hrun].
    + eexists. split.
      * f_equal. f_equal. f_equal.
        rewrite !Hrun, !executeCall_outcome. simpl. by rewrite Hd, Hr, Hi.
      * rewrite !Hrun, !executeCall_final. simpl. rewrite Hrc.
        destruct (recordCalls c_on); by repeat split.
    + eexists. split; [by rewrite !Hrun|].
      rewrite !Hrun. by repeat split.
  - eexists. split; [reflexivity|]. by repeat split.
  - eexists. split; [reflexivity|]. repeat split; simpl; congruence.
  - eexists. split; [reflexivity|]. repeat split; simpl; congruence.
  - eexists. split; [reflexivity|]. by repeat split.
  - eexists. split; [reflexivity|]. by repeat split.
  - eexists. split; [reflexivity|]. by repeat split.
Qed.

Lemma run_script_sim ops c_on c_off outs c_on' :
  flag_sim c_on c_off →
  run_script ops c_on = Some (outs, c_on') →
  ∃ c_off', run_script ops c_off = Some (outs, c_off') ∧ flag_sim c_on' c_off'.
Proof.
  revert c_on c_off outs c_on'.
  induction ops as [|op rest IH]; intros c_on c_off outs c_on' Hs H.
  - simpl in *. simplify_eq. by exists c_off.
  - rewrite run_script_cons in *.
    destruct (step op c_on) as [[o1 c1]|] eqn:H1; simplify_eq.
    destruct (run_script rest c1) as [[o2 c2]|] eqn:H2; simplify_eq.
    destruct (step_sim _ _ _ _ _ Hs H1) as (c1' & H1' & Hs1).
    destruct (IH _ _ _ _ Hs1 H2) as (c2' & H2' & Hs2).
    exists c2'. by rewrite H1', H2'.
Qed.

(** ** Reset *)

(** C8. After any script run on a freshly constructed client, [reset()]
    leaves a client equal to the one [createMockClient] built from the same
    options: the log, both tables and both spy histories are empty, and the
    default descriptor is the one of construction, so that the next
    invocation, of any address, resolves the default: its error if it
    carries one, else its output. *)
Theorem reset_restores_construction opts ops outs c :
  run_script ops (createMockClient opts) = Some (outs, c) →
  reset c = createMockClient opts ∧
  getCalls (reset c) = [] ∧
  responses (reset c) = ∅ ∧
  implementations (reset c) = ∅ ∧
  callMock_calls (reset c) = [] ∧
  execMock_calls (reset c) = [] ∧
  ∀ p i now,
    outcome (callMock p i now (reset c)) =
    let d := default empty_response (opt_defaultResponse opts) in
    match error d with Some e => Throw (VError e) | None => Return (output d) end.
Proof.
  intros H. destruct (run_script_constants _ _ _ _ H) as [Hd Hrc].
  assert (Hreset : reset c = createMockClient opts).
  { unfold reset, createMockClient in *. simpl in *. by rewrite <- Hd, <- Hrc. }
  split; [exact Hreset|].
  repeat (split; [reflexivity|]).
  intros p i now. rewrite callMock_outcome.
  assert (Hi : implementations (reset c) !! pathToKey p = None)
    by apply lookup_empty.
  assert (Hr : responses (reset c) !! pathToKey p = None)
    by apply lookup_empty.
  rewrite Hi, Hr. simpl. by rewrite Hd.
Qed.

Lemma reset_restores_construction_witness :
  let opts := mkOptions (Some (mockOutput (VObj [("success", VBool true)]))) None in
  let p := ["test"] in
  let ops := [OpMockResponse p (mockOutput (VStr "result")); OpCall p (VObj []) 5] in
  let c1 := mockResponse p (mockOutput (VStr "result")) (createMockClient opts) in
  let c := final (callMock p (VObj []) 5 c1) in
  getCalls c = [{| path := p; input := VObj []; timestamp := 5 |}] ∧
  outcome (callMock p (VObj []) 6 c) = Return (VStr "result") ∧
  reset c = createMockClient opts ∧
  getCalls (reset c) = [] ∧
  responses (reset c) = ∅ ∧
  implementations (reset c) = ∅ ∧
  callMock_calls (reset c) = [] ∧
  execMock_calls (reset c) = [] ∧
  ∀ p' i now,
    outcome (callMock p' i now (reset c)) =
    Return (VObj [("success", VBool true)]).
Proof.
  intros opts p ops c1 c.
  split; [reflexivity|]. split; [reflexivity|].
  apply (reset_restores_construction opts ops
           [outcome (callMock p (VObj []) 5 c1)] c).
  reflexivity.
Defined.

(** ** The recording flag *)

(** With bindings that are functions of their input: two clients
    constructed with the same default descriptor, one with
    [recordCalls: true] and one with [recordCalls: false], and driven by
    the same script.  Every invocation of the script completes the same
    way on both, the log of the second one is empty, and any further
    [call] completes the same way on both, after the same timers and the
    same run of a binding. *)
Theorem recordCalls_only_affects_log d ops outs c_on :
  run_script ops (createMockClient (mkOptions d (Some true))) = Some (outs, c_on) →
  ∃ c_off,
    run_script ops (createMockClient (mkOptions d (Some false))) = Some (outs, c_off) ∧
    getCalls c_off = [] ∧
    ∀ p i now,
      outcome (callMock p i now c_off) = outcome (callMock p i now c_on) ∧
      timeouts (trace (callMock p i now c_off)) =
        timeouts (trace (callMock p i now c_on)) ∧
      bindings_run (trace (callMock p i now c_off)) =
        bindings_run (trace (callMock p i now c_on)) ∧
      getCalls (final (callMock p i now c_off)) = [].
Proof.
  intros H.
  assert (Hs : flag_sim (createMockClient (mkOptions d (Some true)))
                        (createMockClient (mkOptions d (Some false))))
    by by repeat split.
  destruct (run_script_sim _ _ _ _ _ Hs H) as (c_off & Hrun & Hsim).
  exists c_off. split; [exact Hrun|].
  destruct Hsim as (Hd & Hr & Hi & Hrc & Hc).
  split; [exact Hc|].
  intros p i now.
  rewrite !callMock_outcome, !callMock_trace, callMock_final, Hd, Hr, Hi, Hrc.
  split; [reflexivity|]. simpl.
  destruct (recordCalls c_on); repeat split; try exact Hc;
    destruct (implementations c_on !! pathToKey p); try reflexivity;
    by destruct (delay_set _).
Qed.

Lemma recordCalls_only_affects_log_witness :
  let d := Some (mockOutput (VNum 0)) in
  let p := ["db"; "query"] in
  let ops := [OpMockResponse p (mockError (inr "down"));
              OpCall p (VStr "SELECT 1") 10;
              OpCall ["other"] VNull 11] in
  let outs := [Throw (VError (mkError "down")); Return (VNum 0)] in
  ∃ c_on,
    run_script ops (createMockClient (mkOptions d (Some true))) = Some (outs, c_on) ∧
    length (getCalls c_on) = 2 ∧
    ∃ c_off,
      run_script ops (createMockClient (mkOptions d (Some false))) = Some (outs, c_off) ∧
      getCalls c_off = [] ∧
      ∀ p i now,
        outcome (callMock p i now c_off) = outcome (callMock p i now c_on) ∧
        timeouts (trace (callMock p i now c_off)) =
          timeouts (trace (callMock p i now c_on)) ∧
        bindings_run (trace (callMock p i now c_off)) =
          bindings_run (trace (callMock p i now c_on)) ∧
        getCalls (final (callMock p i now c_off)) = [].
Proof.
  intros d p ops outs.
  eexists. split; [reflexivity|]. split; [reflexivity|].
  apply (recordCalls_only_affects_log d ops outs). reflexivity.
Defined.

(** ** Keys *)

Lemma pathToKey_cons2 x y l :
  pathToKey (x :: y :: l) = x +:+ "." +:+ pathToKey (y :: l).
Proof. reflexivity. Qed.

Lemma dot_free_app_dot s r : dot_free (s +:+ "." +:+ r) = false.
Proof.
  induction s as [|a s IH]; simpl; [done|].
  rewrite IH. apply andb_false_r.
Qed.

Lemma app_dot_inj s1 s2 r1 r2 :
  dot_free s1 = true → dot_free s2 = true →
  s1 +:+ "." +:+ r1 = s2 +:+ "." +:+ r2 →
  s1 = s2 ∧ r1 = r2.
Proof.
  revert s2. induction s1 as [|a s1 IH]; intros [|b s2] H1 H2 H; simpl in *.
  - by simplify_eq.
  - by simplify_eq.
  - by simplify_eq.
  - injection H as Hab Ht. subst b.
    apply andb_prop in H1 as [_ H1]. apply andb_prop in H2 as [_ H2].
    by destruct (IH _ H1 H2 Ht) as [-> ->].
Qed.

(** On non-empty paths whose segments are free of the separator, the key
    determines the path. *)
Lemma pathToKey_inj_dot_free p q :
  Forall (fun s => dot_free s = true) p →
  Forall (fun s => dot_free s = true) q →
  p ≠ [] → q ≠ [] →
  pathToKey p = pathToKey q → p = q.
Proof.
  revert q. induction p as [|x p IH]; intros q Hp Hq Hpn Hqn Hk; [done|].
  destruct q as [|x' q]; [done|].
  apply Forall_cons in Hp as [Hx Hp]. apply Forall_cons in Hq as [Hx' Hq].
  destruct p as [|y p], q as [|y' q].
  - unfold pathToKey in Hk. simpl in Hk. by subst.
  - rewrite pathToKey_cons2 in Hk. change (pathToKey [x]) with x in Hk.
    subst x. by rewrite dot_free_app_dot in Hx.
  - rewrite pathToKey_cons2 in Hk. change (pathToKey [x']) with x' in Hk.
    subst x'. by rewrite dot_free_app_dot in Hx'.
  - rewrite !pathToKey_cons2 in Hk.
    destruct (app_dot_inj _ _ _ _ Hx Hx' Hk) as [-> Hk'].
    f_equal. by apply IH.
Qed.

(** C1, at the input where the code departs from it. The addresses
    [["a.b"]] and [["a","b"]] differ, and [pathToKey] gives both the key
    ["a.b"]: a descriptor or a binding registered for the first one is what
    an invocation of the second one resolves. *)
Theorem pathToKey_collision :
  let A := ["a.b"] in
  let B := ["a"; "b"] in
  let c := createMockClient (mkOptions None None) in
  A ≠ B ∧
  pathToKey A = pathToKey B ∧
  (∀ i now, outcome (callMock B i now c) = Return VUndefined) ∧
  (∀ i now,
     outcome (callMock B i now (mockResponse A (mockOutput (VStr "for A")) c))
     = Return (VStr "for A")) ∧
  (∀ i now (f : Implementation),
     outcome (callMock B i now (mockImplementation A f c)) = f i).
Proof.
  repeat split; try done.
  intros i now f. by rewrite callMock_outcome.
Qed.

(** The empty path and the path of one empty segment share a key too. *)
Lemma pathToKey_empty_collision :
  ([] : ProcedurePath) ≠ [""] ∧ pathToKey [] = pathToKey [""].
Proof. by split. Qed.

(** ** getCallsFor *)

(** [getCallsFor] selects by key, in log order. *)
Lemma getCallsFor_sublist p c : getCallsFor p c `sublist_of` getCalls c.
Proof. apply sublist_filter. Qed.

(** Where keys determine paths, selecting by key is selecting by path. *)
Lemma getCallsFor_dot_free p c :
  p ≠ [] → Forall (fun s => dot_free s = true) p →
  Forall (fun r => path r ≠ [] ∧ Forall (fun s => dot_free s = true) (path r))
         (calls c) →
  getCallsFor p c = filter (fun r => path r = p) (getCalls c).
Proof.
  intros Hp Hd. unfold getCallsFor, getCalls.
  induction (calls c) as [|r l IH]; intros Hl; [done|].
  apply Forall_cons in Hl as [[Hr1 Hr2] Hl].
  rewrite !filter_cons, (IH Hl).
  destruct (decide (pathToKey (path r) = pathToKey p)) as [Hk|Hk];
    destruct (decide (path r = p)) as [Heq|Hne]; try done.
  - destruct Hne. by apply pathToKey_inj_dot_free.
  - destruct Hk. by rewrite Heq.
Qed.

(** C2, at the input where the code departs from it. The log holds one
    record, of an invocation of [["a.b"]]; [getCallsFor(["a","b"])] returns
    that record, although no record of the log has the path [["a","b"]]. *)
Theorem getCallsFor_collision :
  let c := final (callMock ["a.b"] (VNum 1) 0
                    (createMockClient (mkOptions None None))) in
  let r := {| path := ["a.b"]; input := VNum 1; timestamp := 0 |} in
  getCalls c = [r] ∧
  getCallsFor ["a"; "b"] c = [r] ∧
  filter (fun r => path r = ["a"; "b"]) (getCalls c) = [].
Proof. by repeat split. Qed.

(** ** getCalls and the sharing of records *)

Section heap_facts.
Import Heap.

Lemma wf_create : wf create.
Proof.
  unfold wf, create, items_of; simpl. split; [lia|].
  intros l. rewrite lookup_insert_eq. simpl. by intros ?%elem_of_nil.
Qed.

Lemma wf_push r e : wf e → wf (push r e).
Proof.
  intros [Hlog Hi]. unfold wf, push, items_of in *; simpl in *.
  split; [lia|]. intros l. rewrite lookup_insert_eq. simpl.
  intros [Hl| ->%list_elem_of_singleton]%elem_of_app; [|lia].
  specialize (Hi l Hl). lia.
Qed.

Lemma wf_getCalls e : wf e → wf (getCalls e).2.
Proof.
  intros [Hlog Hi]. unfold wf, getCalls, items_of in *; simpl in *.
  split; [lia|]. intros l.
  rewrite lookup_insert_ne by lia. intros Hl. specialize (Hi l Hl). lia.
Qed.

(** The store agrees with the list of the client: a push appends. *)
Lemma read_push r e :
  wf e →
  read (heap (push r e)) (log (push r e)) = read (heap e) (log e) ++ [Some r].
Proof.
  intros [Hlog Hi]. unfold read, push, items_of in *; simpl in *.
  rewrite lookup_insert_eq. simpl. rewrite fmap_app. simpl.
  rewrite lookup_insert_eq. f_equal.
  apply list_fmap_ext. intros k l Hl.
  rewrite lookup_insert_ne; [done|].
  intros <-. apply list_elem_of_lookup_2 in Hl. specialize (Hi _ Hl). lia.
Qed.

(** Mutations of the array [a] leave the records and every other array
    as they are. *)
Lemma mutate_on_array_frame a ms h :
  Forall (on_array a) ms →
  let h' := foldl (fun h m => mutate m h) h ms in
  records h' = records h ∧ next h' = next h ∧
  ∀ b, b ≠ a → arrays h' !! b = arrays h !! b.
Proof.
  revert h. induction ms as [|m ms IH]; intros h Hms; simpl; [done|].
  apply Forall_cons in Hms as [Hm Hms].
  destruct (IH (mutate m h) Hms) as (Hr & Hn & Ha).
  destruct m as [a' items|l r]; [|done]. simpl in Hm. subst a'.
  simpl in *. rewrite Hr, Hn. repeat split.
  intros b Hb. rewrite (Ha b Hb). by apply lookup_insert_ne.
Qed.

(** The store and the list of [Client] stay in step. *)
Lemma represents_create opts : represents create (createMockClient opts).
Proof. reflexivity. Qed.

Lemma represents_push r e c :
  wf e → represents e c →
  represents (push r e) (set_calls (calls c ++ [r]) c).
Proof.
  intros Hwf Hrep. unfold represents in *.
  rewrite read_push by done. rewrite Hrep. simpl. by rewrite fmap_app.
Qed.

(** The array [getCalls] returns reads as the log does. *)
Lemma read_getCalls e :
  read (heap (getCalls e).2) (getCalls e).1 = read (heap e) (log e).
Proof.
  unfold read, getCalls, items_of. simpl. by rewrite lookup_insert_eq.
Qed.

End heap_facts.

(** C9, as stated, fails. One call is in the log; the test takes the array
    [getCalls()] returns and assigns the [input] field of its first record.
    The record is the one the live log refers to: the live log, and the
    array a later [getCalls()] returns, show the assigned value. *)
Lemma record_mutation_reaches_log :
  let r := {| path := ["fs"; "read"]; input := VStr "/a"; timestamp := 1 |} in
  let r' := {| path := ["fs"; "read"]; input := VStr "/tampered"; timestamp := 1 |} in
  let e := Heap.push r Heap.create in
  let a := (Heap.getCalls e).1 in
  let e1 := (Heap.getCalls e).2 in
  let m := Heap.SetRecord 1 r' in
  let e2 := Heap.mutate_engine [m] e1 in
  Heap.wf e ∧
  Heap.read (Heap.heap e1) a = [Some r] ∧
  Heap.on_returned (Heap.heap e1) a m ∧
  Heap.read (Heap.heap e2) (Heap.log e2) = [Some r'] ∧
  Heap.read (Heap.heap (Heap.getCalls e2).2) (Heap.getCalls e2).1 = [Some r'] ∧
  Heap.read (Heap.heap (Heap.getCalls e2).2) (Heap.getCalls e2).1 ≠
    Heap.read (Heap.heap e1) a.
Proof.
  split; [apply wf_push, wf_create|].
  split; [reflexivity|].
  split; [by apply list_elem_of_singleton|].
  split; [reflexivity|].
  split; [reflexivity|].
  vm_compute. discriminate.
Qed.

(** C9, amended. [getCalls()] returns the whole log, in order, in an array
    of its own: however the caller changes the contents of that array
    (adding, removing, replacing or reordering elements), the live log and
    the array a later [getCalls()] returns still read as the log did.  The
    records are the ones of the log and are not copied. *)
Theorem getCalls_returns_fresh_array e ms :
  Heap.wf e →
  let a := (Heap.getCalls e).1 in
  let e1 := (Heap.getCalls e).2 in
  Forall (Heap.on_array a) ms →
  let e2 := Heap.mutate_engine ms e1 in
  Heap.read (Heap.heap e1) a = Heap.read (Heap.heap e) (Heap.log e) ∧
  Heap.items_of (Heap.heap e1) a = Heap.items_of (Heap.heap e) (Heap.log e) ∧
  Heap.read (Heap.heap e2) (Heap.log e2) = Heap.read (Heap.heap e) (Heap.log e) ∧
  Heap.read (Heap.heap (Heap.getCalls e2).2) (Heap.getCalls e2).1 =
    Heap.read (Heap.heap e) (Heap.log e).
Proof.
  intros [Hlog Hi] a e1 Hms e2.
  destruct (mutate_on_array_frame a ms (Heap.heap e1) Hms) as (Hr & Hn & Ha).
  change (Heap.heap e2) with
    (foldl (fun h m => Heap.mutate m h) (Heap.heap e1) ms) in *.
  change (Heap.log e2) with (Heap.log e) in *.
  change a with (Heap.next (Heap.heap e)) in *.
  assert (Hne : Heap.log e ≠ Heap.next (Heap.heap e)) by lia.
  assert (Hitems : Heap.items_of (Heap.heap e1) (Heap.next (Heap.heap e)) =
                   Heap.items_of (Heap.heap e) (Heap.log e)).
  { unfold Heap.items_of at 1. simpl. by rewrite lookup_insert_eq. }
  assert (Hlive :
    Heap.items_of (foldl (fun h m => Heap.mutate m h) (Heap.heap e1) ms)
                  (Heap.log e) =
    Heap.items_of (Heap.heap e) (Heap.log e)).
  { unfold Heap.items_of at 1. rewrite (Ha _ Hne). simpl.
    by rewrite lookup_insert_ne by lia. }
  assert (Hread :
    Heap.read (foldl (fun h m => Heap.mutate m h) (Heap.heap e1) ms)
              (Heap.log e) =
    Heap.read (Heap.heap e) (Heap.log e)).
  { unfold Heap.read. by rewrite Hlive, Hr. }
  split; [apply read_getCalls|].
  split; [exact Hitems|].
  split; [exact Hread|].
  rewrite read_getCalls. exact Hread.
Qed.

Lemma getCalls_returns_fresh_array_witness :
  let r := {| path := ["fs"; "read"]; input := VStr "/a"; timestamp := 1 |} in
  let e := Heap.push r Heap.create in
  let a := (Heap.getCalls e).1 in
  let e1 := (Heap.getCalls e).2 in
  let ms := [Heap.SetItems a []; Heap.SetItems a [1; 1; 7]] in
  let e2 := Heap.mutate_engine ms e1 in
  Heap.read (Heap.heap e2) a = [Some r; Some r; None] ∧
  Heap.read (Heap.heap e1) a = Heap.read (Heap.heap e) (Heap.log e) ∧
  Heap.items_of (Heap.heap e1) a = Heap.items_of (Heap.heap e) (Heap.log e) ∧
  Heap.read (Heap.heap e2) (Heap.log e2) = Heap.read (Heap.heap e) (Heap.log e) ∧
  Heap.read (Heap.heap (Heap.getCalls e2).2) (Heap.getCalls e2).1 =
    Heap.read (Heap.heap e) (Heap.log e).
Proof.
  intros r e a e1 ms e2.
  split; [reflexivity|].
  apply (getCalls_returns_fresh_array e ms).
  - apply wf_push, wf_create.
  - repeat constructor.
Defined.

(** * Further properties of the engine *)

(** ** Resolution of descriptors *)

(** What [call] does when no binding is registered under the key of the
    path, with [d] the descriptor that is resolved. *)
Lemma callMock_descriptor p i now c :
  implementations c !! pathToKey p = None →
  let d := default (defaultResponse c) (responses c !! pathToKey p) in
  let r := callMock p i now c in
  outcome r = descriptor_completion d ∧
  trace r =
    (if recordCalls c
     then [EvPush {| path := p; input := i; timestamp := now |}] else []) ++
    match delay_set d with Some ms => [EvTimeout ms] | None => [] end.
Proof.
  intros Hi d r. subst r.
  rewrite callMock_outcome, callMock_trace, Hi. by split.
Qed.

Lemma timeouts_app tr1 tr2 : timeouts (tr1 ++ tr2) = timeouts tr1 ++ timeouts tr2.
Proof. apply omap_app. Qed.

Lemma timeouts_pushed (b : bool) r :
  timeouts (if b then [EvPush r] else []) = [].
Proof. by destruct b. Qed.

(** X1. An address with no entry in either table resolves the default
    descriptor of construction, whole: the call waits on the default's
    delay if it has a non-zero one, then fails with the default's error if
    it has one, else returns the default's output. *)
Theorem unregistered_resolves_default p i now c :
  implementations c !! pathToKey p = None →
  responses c !! pathToKey p = None →
  let r := callMock p i now c in
  outcome r = descriptor_completion (defaultResponse c) ∧
  timeouts (trace r) =
    match delay_set (defaultResponse c) with Some ms => [ms] | None => [] end.
Proof.
  intros Hi Hr r. subst r.
  destruct (callMock_descriptor p i now c Hi) as [Ho Ht].
  cbv zeta in Ho, Ht. rewrite Ho, Ht, Hr, timeouts_app, timeouts_pushed.
  simpl. split; [reflexivity|]. clear Ho Ht. destruct (delay_set _); reflexivity.
Qed.

Lemma unregistered_resolves_default_witness :
  let d := {| output := VNum 1; error := Some (mkError "offline");
              delay := Some 30%Z |} in
  let c := mockResponse ["fs"; "read"] (mockOutput (VStr "x"))
             (createMockClient (mkOptions (Some d) None)) in
  let r := callMock ["fs"; "write"] VNull 9 c in
  outcome r = Throw (VError (mkError "offline")) ∧
  timeouts (trace r) = [30%Z].
Proof.
  intros d c.
  apply (unregistered_resolves_default ["fs"; "write"] VNull 9 c); reflexivity.
Defined.

Lemma callMock_after_mockResponse p d i now c :
  implementations c !! pathToKey p = None →
  outcome (callMock p i now (mockResponse p d c)) = descriptor_completion d ∧
  timeouts (trace (callMock p i now (mockResponse p d c))) =
    match delay_set d with Some ms => [ms] | None => [] end.
Proof.
  intros Hi.
  assert (Hi' : implementations (mockResponse p d c) !! pathToKey p = None)
    by exact Hi.
  assert (Hr : responses (mockResponse p d c) !! pathToKey p = Some d)
    by apply lookup_insert_eq.
  destruct (callMock_descriptor p i now _ Hi') as [Ho Ht].
  cbv zeta in Ho, Ht.
  rewrite Ho, Ht, Hr, timeouts_app, timeouts_pushed.
  simpl. split; [reflexivity|]. clear Ho Ht. destruct (delay_set _); reflexivity.
Qed.

(** X2. A descriptor registered for an address replaces the default as a
    whole; nothing of the default is merged in.  With [d] registered and no
    binding, the completion and the timer are those of [d] alone, whatever
    the default descriptor carries. *)
Theorem registered_descriptor_hides_default p d i now c :
  implementations c !! pathToKey p = None →
  let r := callMock p i now (mockResponse p d c) in
  outcome r = descriptor_completion d ∧
  timeouts (trace r) = match delay_set d with Some ms => [ms] | None => [] end.
Proof.
  intros Hi r. by apply callMock_after_mockResponse.
Qed.

Lemma registered_descriptor_hides_default_witness :
  let dflt := {| output := VNum 1; error := Some (mkError "offline");
                 delay := Some 30%Z |} in
  let c := createMockClient (mkOptions (Some dflt) None) in
  let r := callMock ["fs"; "read"] VNull 9
             (mockResponse ["fs"; "read"] empty_response c) in
  outcome r = Return VUndefined ∧ timeouts (trace r) = [].
Proof.
  intros dflt c.
  apply (registered_descriptor_hides_default ["fs"; "read"] empty_response
           VNull 9 c).
  reflexivity.
Defined.

(** X3. The delay of a descriptor comes before its error: with a non-zero
    delay and an error, the invocation pushes its record (when recording),
    then sets one timer of that delay, and only then fails with the
    error.  A delay of zero sets no timer. *)
Theorem delay_precedes_error p out e ms i now c :
  implementations c !! pathToKey p = None →
  responses c !! pathToKey p =
    Some {| output := out; error := Some e; delay := Some ms |} →
  let r := callMock p i now c in
  outcome r = Throw (VError e) ∧
  trace r =
    (if recordCalls c
     then [EvPush {| path := p; input := i; timestamp := now |}] else []) ++
    (if (ms =? 0)%Z then [] else [EvTimeout ms]).
Proof.
  intros Hi Hr r. subst r.
  destruct (callMock_descriptor p i now c Hi) as [Ho Ht].
  cbv zeta in Ho, Ht. rewrite Ho, Ht, Hr.
  unfold delay_set. simpl. split; [reflexivity|]. destruct (ms =? 0)%Z; reflexivity.
Qed.

Lemma delay_precedes_error_witness :
  let d := {| output := VNum 1; error := Some (mkError "late");
              delay := Some 40%Z |} in
  let c := mockResponse ["slow"] d (createMockClient (mkOptions None None)) in
  let r := callMock ["slow"] VNull 5 c in
  outcome r = Throw (VError (mkError "late")) ∧
  trace r =
    (if recordCalls c
     then [EvPush {| path := ["slow"]; input := VNull; timestamp := 5 |}]
     else []) ++
    (if (40 =? 0)%Z then [] else [EvTimeout 40]).
Proof.
  intros d c.
  apply (delay_precedes_error ["slow"] (VNum 1) (mkError "late") 40 VNull 5 c);
    reflexivity.
Defined.

(** ** Registration *)

(** X4. Registering a descriptor for an address a second time overwrites
    the first one: the client is the one a single registration of the
    second descriptor gives, and, with no binding, an invocation resolves
    the second descriptor.  The same holds for bindings. *)
Theorem registration_last_wins p d1 d2 (f1 f2 : Implementation) i now c :
  implementations c !! pathToKey p = None →
  mockResponse p d2 (mockResponse p d1 c) = mockResponse p d2 c ∧
  outcome (callMock p i now (mockResponse p d2 (mockResponse p d1 c))) =
    descriptor_completion d2 ∧
  mockImplementation p f2 (mockImplementation p f1 c) =
    mockImplementation p f2 c ∧
  outcome (callMock p i now (mockImplementation p f2 (mockImplementation p f1 c))) =
    f2 i.
Proof.
  intros Hi.
  assert (H1 : mockResponse p d2 (mockResponse p d1 c) = mockResponse p d2 c).
  { unfold mockResponse, set_responses. simpl. by rewrite insert_insert_eq. }
  assert (H2 : mockImplementation p f2 (mockImplementation p f1 c) =
               mockImplementation p f2 c).
  { unfold mockImplementation, set_implementations. simpl.
    by rewrite insert_insert_eq. }
  split; [exact H1|]. split.
  - rewrite H1. by apply callMock_after_mockResponse.
  - split; [exact H2|]. rewrite H2, callMock_outcome.
    assert (Hf : implementations (mockImplementation p f2 c) !! pathToKey p
                 = Some f2) by apply lookup_insert_eq.
    by rewrite Hf.
Qed.

Lemma registration_last_wins_witness :
  let p := ["fs"; "read"] in
  let c := createMockClient (mkOptions None None) in
  let f1 : Implementation := fun _ => Return (VNum 1) in
  let f2 : Implementation := fun v => Throw v in
  let d1 := mockOutput (VStr "old") in
  let d2 := mockError (inr "new") in
  mockResponse p d2 (mockResponse p d1 c) = mockResponse p d2 c ∧
  outcome (callMock p VNull 0 (mockResponse p d2 (mockResponse p d1 c))) =
    descriptor_completion d2 ∧
  mockImplementation p f2 (mockImplementation p f1 c) =
    mockImplementation p f2 c ∧
  outcome (callMock p VNull 0 (mockImplementation p f2 (mockImplementation p f1 c))) =
    f2 VNull.
Proof.
  intros p c f1 f2 d1 d2.
  apply (registration_last_wins p d1 d2 f1 f2 VNull 0 c). reflexivity.
Defined.



(** ** clearCalls and reset *)


(** [reset] absorbs [clearCalls], on either side, and doing it twice is
    doing it once; [clearCalls] twice is [clearCalls] once. *)
Lemma reset_clearCalls_compose c :
  reset (clearCalls c) = reset c ∧
  clearCalls (reset c) = reset c ∧
  reset (reset c) = reset c ∧
  clearCalls (clearCalls c) = clearCalls c.
Proof. by repeat split. Qed.

(** ** Response builders *)

(** X8. [mockError] with a string registers a failure with a new [Error]
    of that message, and with an [Error] object registers that object:
    with no binding, invoking the address fails with it, sets no timer and
    returns nothing. *)
Theorem mockError_fails_with_message p (err : Error + string) i now c :
  implementations c !! pathToKey p = None →
  let r := callMock p i now (mockResponse p (mockError err) c) in
  outcome r =
    Throw (VError match err with inl e => e | inr s => mkError s end) ∧
  timeouts (trace r) = [].
Proof.
  intros Hi r.
  destruct (callMock_after_mockResponse p (mockError err) i now c Hi)
    as [Ho Ht].
  split; [exact Ho | exact Ht].
Qed.

Lemma mockError_fails_with_message_witness :
  let c := createMockClient (mkOptions None None) in
  let r := callMock ["fs"; "read"] VNull 0
             (mockResponse ["fs"; "read"] (mockError (inr "ENOENT")) c) in
  outcome r = Throw (VError (mkError "ENOENT")) ∧ timeouts (trace r) = [].
Proof.
  intros c.
  apply (mockError_fails_with_message ["fs"; "read"] (inr "ENOENT") VNull 0 c).
  reflexivity.
Defined.

(** X9. [mockDelayed(output, delayMs)] registers a success after a wait:
    with no binding, invoking the address sets one timer of [delayMs] and
    returns [output]; when [delayMs] is zero no timer is set.
    [mockOutput(output)] returns [output] and never sets a timer. *)
Theorem mockDelayed_waits_then_returns p out ms i now c :
  implementations c !! pathToKey p = None →
  let r := callMock p i now (mockResponse p (mockDelayed out ms) c) in
  let r0 := callMock p i now (mockResponse p (mockOutput out) c) in
  outcome r = Return out ∧
  timeouts (trace r) = (if (ms =? 0)%Z then [] else [ms]) ∧
  outcome r0 = Return out ∧
  timeouts (trace r0) = [].
Proof.
  intros Hi r r0.
  destruct (callMock_after_mockResponse p (mockDelayed out ms) i now c Hi)
    as [Ho Ht].
  destruct (callMock_after_mockResponse p (mockOutput out) i now c Hi)
    as [Ho0 Ht0].
  split; [exact Ho|]. split; [|split; [exact Ho0 | exact Ht0]].
  subst r. rewrite Ht. unfold delay_set. simpl. by destruct (ms =? 0)%Z.
Qed.

Lemma mockDelayed_waits_then_returns_witness :
  let c := createMockClient (mkOptions None None) in
  let r := callMock ["slow"] VNull 0
             (mockResponse ["slow"] (mockDelayed (VNum 5) 120) c) in
  let r0 := callMock ["slow"] VNull 0
              (mockResponse ["slow"] (mockOutput (VNum 5)) c) in
  outcome r = Return (VNum 5) ∧
  timeouts (trace r) = (if (120 =? 0)%Z then [] else [120%Z]) ∧
  outcome r0 = Return (VNum 5) ∧
  timeouts (trace r0) = [].
Proof.
  intros c.
  apply (mockDelayed_waits_then_returns ["slow"] (VNum 5) 120 VNull 0 c).
  reflexivity.
Defined.

(** ** exec *)


(** X11. In a reference object the field [$proc] comes first: when it
    holds an address, [exec] invokes that address, whatever the field
    [path] holds. *)
Theorem proc_field_precedes_path fields p second now c :
  get fields "$proc" = VArr p →
  ∃ m, execMock (VObj fields) second now = Some m ∧
       m c = executeCall p (get fields "input" ?? default VUndefined second) now
               (set_execMock_calls
                  (execMock_calls c ++ [(VObj fields, second)]) c).
Proof.
  intros Hp.
  apply execMock_run, exec_body_reference.
  by rewrite Hp.
Qed.

Lemma proc_field_precedes_path_witness :
  let fields := [("path", VArr ["other"]); ("$proc", VArr ["fs"; "read"])] in
  let c := createMockClient (mkOptions None None) in
  (∃ m, execMock (VObj fields) None 4 = Some m ∧
        getCalls (final (m c)) =
          [{| path := ["fs"; "read"]; input := VUndefined; timestamp := 4 |}]) ∧
  ∃ m, execMock (VObj fields) None 4 = Some m ∧
       m c = executeCall ["fs"; "read"]
               (get fields "input" ?? default VUndefined None) 4
               (set_execMock_calls
                  (execMock_calls c ++ [(VObj fields, None)]) c).
Proof.
  intros fields c. split; [by eexists|].
  apply (proc_field_precedes_path fields ["fs"; "read"] None 4 c). reflexivity.
Defined.

(** X12. The field [path] is the fallback: it is used when [$proc] is
    missing, [undefined] or [null], and only then. *)
Theorem path_field_is_fallback fields q second now c :
  nullish (get fields "$proc") = true →
  get fields "path" = VArr q →
  ∃ m, execMock (VObj fields) second now = Some m ∧
       m c = executeCall q (get fields "input" ?? default VUndefined second) now
               (set_execMock_calls
                  (execMock_calls c ++ [(VObj fields, second)]) c).
Proof.
  intros Hn Hq.
  apply execMock_run, exec_body_reference.
  unfold coalesce. by rewrite Hn.
Qed.

Lemma path_field_is_fallback_witness :
  let fields := [("$proc", VNull); ("path", VArr ["fs"; "read"])] in
  let c := createMockClient (mkOptions None None) in
  ∃ m, execMock (VObj fields) (Some (VNum 1)) 4 = Some m ∧
       m c = executeCall ["fs"; "read"]
               (get fields "input" ?? default VUndefined (Some (VNum 1))) 4
               (set_execMock_calls
                  (execMock_calls c ++ [(VObj fields, Some (VNum 1))]) c).
Proof.
  intros fields c.
  apply (path_field_is_fallback fields ["fs"; "read"] (Some (VNum 1)) 4 c);
    reflexivity.
Defined.

(** X13. A [$proc] that is falsy without being [null] or [undefined] (the
    empty string, zero, [false]) blocks the fallback: [exec] fails with
    "Invalid procedure reference" and records nothing, even when [path]
    holds an address. *)
Theorem falsy_proc_blocks_fallback fields second now c :
  nullish (get fields "$proc") = false →
  truthy (get fields "$proc") = false →
  ∃ m, execMock (VObj fields) second now = Some m ∧
       outcome (m c) = Throw invalid_reference ∧
       trace (m c) = [] ∧
       getCalls (final (m c)) = getCalls c.
Proof.
  intros Hn Ht.
  assert (Hb : exec_body (VObj fields) second now = Some (throw invalid_reference)).
  { unfold exec_body. simpl. unfold coalesce. by rewrite Hn, Ht. }
  destruct (execMock_run _ _ _ _ c Hb) as (m & Hm & Hrun).
  exists m. split; [exact Hm|]. by rewrite Hrun.
Qed.

Lemma falsy_proc_blocks_fallback_witness :
  let fields := [("$proc", VStr ""); ("path", VArr ["fs"; "read"])] in
  let c := createMockClient (mkOptions None None) in
  get fields "path" = VArr ["fs"; "read"] ∧
  ∃ m, execMock (VObj fields) None 0 = Some m ∧
       outcome (m c) = Throw invalid_reference ∧
       trace (m c) = [] ∧
       getCalls (final (m c)) = getCalls c.
Proof.
  intros fields c. split; [reflexivity|].
  apply (falsy_proc_blocks_fallback fields None 0 c); reflexivity.
Defined.


(** ** Keys and getCallsFor *)



(** X16. When the asked path and the paths in the log are non-empty and
    free of the separator, [getCallsFor] returns exactly the records of
    that path, in log order. *)
Theorem getCallsFor_exact_on_dot_free_log p c :
  p ≠ [] → Forall (fun s => dot_free s = true) p →
  Forall (fun r => path r ≠ [] ∧ Forall (fun s => dot_free s = true) (path r))
         (getCalls c) →
  getCallsFor p c = filter (fun r => path r = p) (getCalls c).
Proof. apply getCallsFor_dot_free. Qed.

Lemma getCallsFor_exact_on_dot_free_log_witness :
  let c0 := createMockClient (mkOptions None None) in
  let c := final (callMock ["fs"; "read"] (VNum 2) 2
                    (final (callMock ["fs"; "readFile"] (VNum 1) 1 c0))) in
  getCallsFor ["fs"; "read"] c =
    [{| path := ["fs"; "read"]; input := VNum 2; timestamp := 2 |}] ∧
  getCallsFor ["fs"; "read"] c =
    filter (fun r => path r = ["fs"; "read"]) (getCalls c).
Proof.
  intros c0 c. split; [reflexivity|].
  apply (getCallsFor_exact_on_dot_free_log ["fs"; "read"] c).
  - discriminate.
  - repeat constructor.
  - repeat constructor; discriminate.
Defined.

(** X17. [getCallsFor] never misses a record: every record of the log
    whose path is the asked one is returned, in log order; what it returns
    is an order-preserving selection of the log, and each returned record
    has the key of the asked path. *)
Theorem getCallsFor_never_misses p c :
  filter (fun r => path r = p) (getCalls c) `sublist_of` getCallsFor p c ∧
  getCallsFor p c `sublist_of` getCalls c ∧
  Forall (fun r => pathToKey (path r) = pathToKey p) (getCallsFor p c).
Proof.
  unfold getCallsFor, getCalls. split; [|split].
  - induction (calls c) as [|r l IH]; [done|].
    rewrite !filter_cons.
    destruct (decide (path r = p)) as [->|Hne].
    + rewrite decide_True by done. by constructor.
    + destruct (decide (pathToKey (path r) = pathToKey p));
        [by constructor | exact IH].
  - apply sublist_filter.
  - apply Forall_forall. by intros r [Hr _]%list_elem_of_filter.
Qed.

(** ** Sequences of operations *)




(** X20. The two settings of construction are constants: after any
    sequence of operations of the interface, [reset] included, the default
    descriptor and the recording flag are the ones the options gave (the
    empty descriptor and [true] when the options gave none). *)
Theorem construction_settings_are_constant opts ops outs c :
  run_script ops (createMockClient opts) = Some (outs, c) →
  defaultResponse c = default empty_response (opt_defaultResponse opts) ∧
  recordCalls c = default true (opt_recordCalls opts).
Proof.
  intros H. by destruct (run_script_constants _ _ _ _ H) as [-> ->].
Qed.

Lemma construction_settings_are_constant_witness :
  let d := mockOutput (VNum 7) in
  let opts := mkOptions (Some d) (Some false) in
  let ops := [OpMockResponse ["a"] (mockError (inr "x")); OpCall ["a"] VNull 1;
              OpReset; OpExec (VArr ["a"]) None 2] in
  ∃ outs c,
    run_script ops (createMockClient opts) = Some (outs, c) ∧
    outs = [Throw (VError (mkError "x")); Return (VNum 7)] ∧
    defaultResponse c = default empty_response (opt_defaultResponse opts) ∧
    recordCalls c = default true (opt_recordCalls opts).
Proof.
  intros d opts ops. eexists _, _. split; [reflexivity|]. split; [reflexivity|].
  apply (construction_settings_are_constant opts ops
           [Throw (VError (mkError "x")); Return (VNum 7)]).
  reflexivity.
Defined.

(** ** Snapshots of the log *)

Section snapshot_facts.
Import Heap.

(** A push leaves the arrays other than the log, and what they read, as
    they were, provided their elements were allocated before. *)
Lemma read_push_other r e a :
  a ≠ log e →
  (∀ l, l ∈ items_of (heap e) a → l < next (heap e)) →
  items_of (heap (push r e)) a = items_of (heap e) a ∧
  read (heap (push r e)) a = read (heap e) a.
Proof.
  intros Hne Hb.
  assert (Hitems : items_of (heap (push r e)) a = items_of (heap e) a).
  { unfold items_of, push. simpl. by rewrite lookup_insert_ne. }
  split; [exact Hitems|].
  unfold read. rewrite Hitems.
  apply list_fmap_ext. intros k l Hl. unfold push. simpl.
  rewrite lookup_insert_ne; [done|].
  intros <-. apply list_elem_of_lookup_2 in Hl. specialize (Hb _ Hl). lia.
Qed.

Lemma next_push r e : next (heap (push r e)) = S (next (heap e)).
Proof. reflexivity. Qed.

Lemma log_push r e : log (push r e) = log e.
Proof. reflexivity. Qed.

Lemma pushes_after rs e a :
  wf e → a ≠ log e →
  (∀ l, l ∈ items_of (heap e) a → l < next (heap e)) →
  let e' := foldl (fun e r => push r e) e rs in
  wf e' ∧ log e' = log e ∧
  read (heap e') a = read (heap e) a ∧
  read (heap e') (log e') = read (heap e) (log e) ++ (Some <$> rs).
Proof.
  revert e. induction rs as [|r rs IH]; intros e Hwf Hne Hb; simpl.
  - by rewrite app_nil_r.
  - destruct (read_push_other r e a Hne Hb) as [Hitems Hread].
    assert (Hb' : ∀ l, l ∈ items_of (heap (push r e)) a →
                       l < next (heap (push r e))).
    { intros l Hl. rewrite Hitems in Hl. specialize (Hb l Hl).
      rewrite next_push. lia. }
    destruct (IH (push r e) (wf_push r e Hwf) Hne Hb') as (Hwf' & Hlog & Ha & Hl).
    split; [exact Hwf'|]. split; [by rewrite Hlog|].
    split; [by rewrite Ha|].
    rewrite Hl, (read_push r e Hwf), <- app_assoc. done.
Qed.

End snapshot_facts.

(** X21. The array [getCalls()] returned is a snapshot: calls made
    afterwards append to the live log and not to it, and [clearCalls()]
    empties the live log and not it; it still reads as the log did when it
    was taken. *)
Theorem snapshot_survives_later_calls e rs :
  Heap.wf e →
  let a := (Heap.getCalls e).1 in
  let e1 := (Heap.getCalls e).2 in
  let e2 := foldl (fun e r => Heap.push r e) e1 rs in
  let before := Heap.read (Heap.heap e) (Heap.log e) in
  Heap.read (Heap.heap e2) a = before ∧
  Heap.read (Heap.heap e2) (Heap.log e2) = before ++ (Some <$> rs) ∧
  Heap.read (Heap.heap (Heap.clearCalls e2)) a = before ∧
  Heap.read (Heap.heap (Heap.clearCalls e2)) (Heap.log e2) = [].
Proof.
  intros Hwf a e1 e2 before.
  assert (Hne : a ≠ Heap.log e1).
  { destruct Hwf as [Hlog _]. subst a e1. simpl. lia. }
  assert (Hb : ∀ l, l ∈ Heap.items_of (Heap.heap e1) a →
                    l < Heap.next (Heap.heap e1)).
  { destruct Hwf as [_ Hi]. intros l. subst a e1.
    unfold Heap.items_of at 1. simpl. rewrite lookup_insert_eq. simpl.
    intros Hl. specialize (Hi l Hl). lia. }
  destruct (pushes_after rs e1 a (wf_getCalls e Hwf) Hne Hb)
    as (Hwf2 & Hlog2 & Ha & Hl).
  fold e2 in Hwf2, Hlog2, Ha, Hl.
  assert (Hsnap : Heap.read (Heap.heap e1) a = before) by apply read_getCalls.
  assert (Hlive : Heap.read (Heap.heap e1) (Heap.log e1) = before).
  { subst a e1 before. unfold Heap.read, Heap.items_of. simpl.
    destruct Hwf as [Hlog _]. by rewrite lookup_insert_ne by lia. }
  split; [by rewrite Ha|]. split; [by rewrite Hl, Hlive|].
  assert (Hne2 : Heap.log e2 ≠ a) by (rewrite Hlog2; done).
  split.
  - rewrite <- Hsnap, <- Ha. unfold Heap.read, Heap.clearCalls, Heap.items_of.
    simpl. by rewrite lookup_insert_ne.
  - unfold Heap.read, Heap.clearCalls, Heap.items_of. simpl.
    by rewrite lookup_insert_eq.
Qed.

Lemma snapshot_survives_later_calls_witness :
  let r1 := {| path := ["a"]; input := VNum 1; timestamp := 1 |} in
  let r2 := {| path := ["b"]; input := VNum 2; timestamp := 2 |} in
  let e := Heap.push r1 Heap.create in
  let a := (Heap.getCalls e).1 in
  let e1 := (Heap.getCalls e).2 in
  let e2 := foldl (fun e r => Heap.push r e) e1 [r2] in
  let before := Heap.read (Heap.heap e) (Heap.log e) in
  before = [Some r1] ∧
  Heap.read (Heap.heap e2) a = before ∧
  Heap.read (Heap.heap e2) (Heap.log e2) = before ++ (Some <$> [r2]) ∧
  Heap.read (Heap.heap (Heap.clearCalls e2)) a = before ∧
  Heap.read (Heap.heap (Heap.clearCalls e2)) (Heap.log e2) = [].
Proof.
  intros r1 r2 e a e1 e2 before. split; [reflexivity|].
  apply (snapshot_survives_later_calls e [r2]).
  apply wf_push, wf_create.
Defined.

(** ** createMockContext *)

(** X22. A context built without a client gets a client of its own, as
    [createMockClient()] builds it: recording, with empty tables and the
    empty default, so that any call on it returns [undefined] and leaves
    exactly its record.  A client given in the options is the context's
    client as it is, registrations and log included. *)
Theorem context_client_default_or_given options p i now :
  let ctx := createMockContext options in
  match opt_client options with
  | Some c => client ctx = c
  | None =>
      client ctx = createMockClient (mkOptions None None) ∧
      outcome (callMock p i now (client ctx)) = Return VUndefined ∧
      getCalls (final (callMock p i now (client ctx))) =
        [{| path := p; input := i; timestamp := now |}]
  end.
Proof.
  destruct options as [op om [c|]]; cbv zeta; unfold createMockContext;
    cbn [client opt_client from_option]; [reflexivity|].
  split; [reflexivity|].
  rewrite callMock_outcome, callMock_final. by split.
Qed.

(** * Bindings that use the client *)

Section reentrant_facts.
Import Reentrant.

Lemma effects_app tr1 tr2 : effects (tr1 ++ tr2) = effects tr1 ++ effects tr2.
Proof. apply omap_app. Qed.

Lemma effects_pushed (b : bool) r : effects (if b then [EvPush r] else []) = [].
Proof. by destruct b. Qed.

Lemma blind_registry_insert p (f : Binding) c :
  (∀ v, log_blind (f v)) → blind_registry c →
  blind_registry (mockImplementation p f c).
Proof.
  intros Hf Hc key g Hg. unfold mockImplementation in Hg. simpl in Hg.
  apply lookup_insert_Some in Hg as [[_ <-]|[_ Hg]]; [exact Hf|].
  by apply (Hc key).
Qed.

Lemma blind_registry_reset c : blind_registry (reset c).
Proof. intros key g Hg. simpl in Hg. by rewrite lookup_empty in Hg. Qed.

Lemma same_but_log_after tr_on tr_off r_on r_off :
  effects tr_off = effects tr_on →
  same_but_log (Some r_on) (Some r_off) →
  same_but_log (Some (after tr_on r_on)) (Some (after tr_off r_off)).
Proof.
  intros He (Hr & He' & Hf & Hb). unfold same_but_log, after.
  cbn [trace result final]. repeat split; try done.
  by rewrite !effects_app, He, He'.
Qed.

(** Running a blind body on a client and on its non-recording twin. *)
Lemma run_program_same_but_log call exec :
  (∀ p i t c, blind_registry c →
     same_but_log (call p i t c) (call p i t (without_recording c))) →
  (∀ v i t c, blind_registry c →
     same_but_log (exec v i t c) (exec v i t (without_recording c))) →
  ∀ prog, log_blind prog → ∀ c, blind_registry c →
    same_but_log (run_program call exec prog c)
                 (run_program call exec prog (without_recording c)).
Proof.
  intros Hcall Hexec prog Hblind.
  induction Hblind as
    [r|ms k _ IH|k _ IH|k _ IH|p d k _ IH|p f k Hf _ _ IH|k _ IH|k _ IH|k _ IH
    |p i now k _ IH|v i now k _ IH]; intros c Hc.
  - by repeat split.
  - specialize (IH c Hc). cbn [run_program].
    destruct (run_program call exec k c) as [r1|],
             (run_program call exec k (without_recording c)) as [r2|];
      try done.
    cbn [mbind option_bind]. by apply same_but_log_after.
  - apply (IH (callMock_calls c) (execMock_calls c) c Hc).
  - apply (IH (clearCalls c)). exact Hc.
  - apply (IH (mockResponse p d c)). exact Hc.
  - apply (IH (mockImplementation p f c)). by apply blind_registry_insert.
  - apply (IH (reset c)). apply blind_registry_reset.
  - apply (IH (set_callMock_calls [] c)). exact Hc.
  - apply (IH (set_execMock_calls [] c)). exact Hc.
  - specialize (Hcall p i now c Hc). cbn [run_program].
    destruct (call p i now c) as [r1|],
             (call p i now (without_recording c)) as [r2|]; try done.
    destruct Hcall as (Hr & He & Hf & Hb). cbn [mbind option_bind].
    rewrite Hr, Hf. specialize (IH (result r1) (final r1) Hb).
    destruct (run_program call exec (k (result r1)) (final r1)) as [r1'|],
             (run_program call exec (k (result r1)) (without_recording (final r1)))
               as [r2'|]; try done.
    cbn [mbind option_bind]. by apply same_but_log_after.
  - specialize (Hexec v i now c Hc). cbn [run_program].
    destruct (exec v i now c) as [r1|],
             (exec v i now (without_recording c)) as [r2|]; try done.
    destruct Hexec as (Hr & He & Hf & Hb). cbn [mbind option_bind].
    rewrite Hr, Hf. specialize (IH (result r1) (final r1) Hb).
    destruct (run_program call exec (k (result r1)) (final r1)) as [r1'|],
             (run_program call exec (k (result r1)) (without_recording (final r1)))
               as [r2'|]; try done.
    cbn [mbind option_bind]. by apply same_but_log_after.
Qed.

(** [executeCall] with fuel left, in one equation. *)
Lemma executeCall_S n p i t c :
  executeCall (S n) p i t c =
  let rec := {| path := p; input := i; timestamp := t |} in
  let pushed := if recordCalls c then [EvPush rec] else [] in
  let c1 := if recordCalls c then set_calls (calls c ++ [rec]) c else c in
  match implementations c !! pathToKey p with
  | Some impl =>
      r ← run_program
            (fun p i t c' => executeCall n p i t (spied_call p i c'))
            (fun v i t c' => exec_body (executeCall n) v i t (spied_exec v i c'))
            (impl i) c1;
      Some (after (pushed ++ [EvImpl (pathToKey p) i]) r)
  | None =>
      let d := default (defaultResponse c) (responses c !! pathToKey p) in
      Some {| trace :=
                pushed ++
                match delay_set d with Some ms => [EvTimeout ms] | None => [] end;
              result := descriptor_completion d;
              final := c1 |}
  end.
Proof.
  cbn [executeCall]. by destruct (recordCalls c).
Qed.

Lemma exec_body_same_but_log ec :
  (∀ p i t c, blind_registry c →
     same_but_log (ec p i t c) (ec p i t (without_recording c))) →
  ∀ v i t c, blind_registry c →
    same_but_log (exec_body ec v i t c) (exec_body ec v i t (without_recording c)).
Proof.
  intros Hec v i t c Hc. unfold exec_body.
  destruct v; try by repeat split.
  - by apply Hec.
  - cbn [properties]. destruct (truthy _); [|by repeat split].
    destruct (_ ?? _); try done. by apply Hec.
Qed.

Lemma executeCall_same_but_log n p i t c :
  blind_registry c →
  same_but_log (executeCall n p i t c) (executeCall n p i t (without_recording c)).
Proof.
  revert p i t c. induction n as [|n IH]; intros p i t c Hc; [done|].
  rewrite !executeCall_S. cbv zeta.
  change (implementations (without_recording c)) with (implementations c).
  change (recordCalls (without_recording c)) with false. cbv iota.
  destruct (implementations c !! pathToKey p) as [f|] eqn:Hf.
  - set (c1 := if recordCalls c then _ else c).
    assert (Hc1 : blind_registry c1) by (subst c1; by destruct (recordCalls c)).
    assert (Hw : without_recording c = without_recording c1)
      by (subst c1; by destruct (recordCalls c)).
    rewrite Hw.
    pose proof (run_program_same_but_log
      (fun p i t c' => executeCall n p i t (spied_call p i c'))
      (fun v i t c' => exec_body (executeCall n) v i t (spied_exec v i c'))) as Hrun.
    specialize (Hrun
      (fun p i t c' Hc' => IH p i t (spied_call p i c') Hc')
      (fun v i t c' Hc' =>
         exec_body_same_but_log (executeCall n) IH v i t (spied_exec v i c') Hc')
      (f i) (Hc _ _ Hf i) c1 Hc1).
    destruct (run_program _ _ (f i) c1) as [r1|],
             (run_program _ _ (f i) (without_recording c1)) as [r2|]; try done.
    cbn [mbind option_bind]. apply same_but_log_after; [|done].
    by rewrite !effects_app, effects_pushed.
  - unfold same_but_log. cbn [trace result final].
    change (defaultResponse (without_recording c)) with (defaultResponse c).
    change (responses (without_recording c)) with (responses c).
    repeat split.
    + by rewrite !effects_app, effects_pushed.
    + by destruct (recordCalls c).
    + by destruct (recordCalls c).
Qed.

(** A non-recording engine with an empty log keeps both, whatever the
    bodies of its bindings do. *)
Lemma run_program_silent call exec :
  (∀ p i t c r, silent c → call p i t c = Some r → silent (final r)) →
  (∀ v i t c r, silent c → exec v i t c = Some r → silent (final r)) →
  ∀ prog c r, silent c → run_program call exec prog c = Some r → silent (final r).
Proof.
  intros Hcall Hexec prog.
  induction prog as
    [r0|ms k IH|k IH|q k IH|k IH|k IH|p d k IH|p f IHf k IH|k IH|k IH|k IH
    |p i now k IH|v i now k IH]; intros c r Hc Hrun; cbn [run_program] in Hrun.
  - simplify_eq. exact Hc.
  - destruct (run_program call exec k c) as [r1|] eqn:H1;
      cbn [mbind option_bind] in Hrun; simplify_eq.
    by apply (IH c r1).
  - by apply (IH (getCalls c) c).
  - by apply (IH (getCallsFor q c) c).
  - by apply (IH (callMock_calls c) (execMock_calls c) c).
  - apply (IH (clearCalls c)); [|done]. by destruct Hc.
  - by apply (IH (mockResponse p d c)).
  - by apply (IH (mockImplementation p f c)).
  - apply (IH (reset c)); [|done]. by destruct Hc.
  - by apply (IH (set_callMock_calls [] c)).
  - by apply (IH (set_execMock_calls [] c)).
  - destruct (call p i now c) as [r1|] eqn:H1; simplify_eq.
    cbn [mbind option_bind] in Hrun.
    destruct (run_program call exec (k (result r1)) (final r1)) as [r2|] eqn:H2;
      cbn [mbind option_bind] in Hrun; simplify_eq.
    apply (IH (result r1) (final r1) r2); [by eapply Hcall|done].
  - destruct (exec v i now c) as [r1|] eqn:H1; simplify_eq.
    cbn [mbind option_bind] in Hrun.
    destruct (run_program call exec (k (result r1)) (final r1)) as [r2|] eqn:H2;
      cbn [mbind option_bind] in Hrun; simplify_eq.
    apply (IH (result r1) (final r1) r2); [by eapply Hexec|done].
Qed.

Lemma exec_body_silent ec :
  (∀ p i t c r, silent c → ec p i t c = Some r → silent (final r)) →
  ∀ v i t c r, silent c → exec_body ec v i t c = Some r → silent (final r).
Proof.
  intros Hec v i t c r Hc. unfold exec_body.
  destruct v; try (cbn; intros Hrun; simplify_eq; exact Hc).
  - by apply Hec.
  - cbn [properties].
    destruct (truthy _); [|intros Hrun; simplify_eq; exact Hc].
    destruct (_ ?? _); try done. by apply Hec.
Qed.

Lemma executeCall_silent n p i t c r :
  silent c → executeCall n p i t c = Some r → silent (final r).
Proof.
  revert p i t c r. induction n as [|n IH]; intros p i t c r Hc Hrun; [done|].
  rewrite executeCall_S in Hrun. cbv zeta in Hrun.
  destruct Hc as [Hrc Hcalls]. rewrite Hrc in Hrun.
  destruct (implementations c !! pathToKey p) as [f|].
  - destruct (run_program _ _ (f i) c) as [r1|] eqn:H1;
      cbn [mbind option_bind] in Hrun; simplify_eq.
    revert H1. apply run_program_silent; [| |done].
    + intros p' i' t' c' r' Hc'. apply IH. by destruct Hc'.
    + intros v' i' t' c' r' Hc'. apply (exec_body_silent (executeCall n) IH).
      by destruct Hc'.
  - by simplify_eq.
Qed.

End reentrant_facts.

(** The first model is the fragment of this one whose bindings complete at
    once: on a lifted client, with any fuel left, [call] runs as it does
    there. *)
Lemma callMock_lift n p i now c :
  Reentrant.callMock (S n) p i now (lift c) = Some (lift_run (callMock p i now c)).
Proof.
  unfold Reentrant.callMock. rewrite executeCall_S. cbv zeta.
  rewrite callMock_run, executeCall_run. cbv zeta.
  change (Reentrant.implementations (Reentrant.spied_call p i (lift c)))
    with (lift_binding <$> implementations c).
  rewrite lookup_fmap.
  change (implementations (set_callMock_calls (callMock_calls c ++ [(p, i)]) c))
    with (implementations c).
  destruct (implementations c !! pathToKey p) as [f|]; cbn.
  - unfold lift_run, outcome, Reentrant.after. cbn.
    rewrite app_nil_r. by destruct (f i), (recordCalls c).
  - unfold lift_run, outcome, descriptor_completion. cbn.
    by destruct (error _), (recordCalls c).
Qed.

(** The non-recording twin of a client is what the same construction and
    the same registrations give with [recordCalls: false]. *)
Lemma without_recording_construction d rc (f : Reentrant.Binding) p q r c :
  Reentrant.without_recording (Reentrant.createMockClient (mkOptions d rc)) =
    Reentrant.createMockClient (mkOptions d (Some false)) ∧
  Reentrant.without_recording (Reentrant.mockResponse q r c) =
    Reentrant.mockResponse q r (Reentrant.without_recording c) ∧
  Reentrant.without_recording (Reentrant.mockImplementation p f c) =
    Reentrant.mockImplementation p f (Reentrant.without_recording c) ∧
  Reentrant.without_recording (Reentrant.reset c) =
    Reentrant.reset (Reentrant.without_recording c) ∧
  Reentrant.without_recording (Reentrant.clearCalls c) =
    Reentrant.clearCalls (Reentrant.without_recording c).
Proof. by repeat split. Qed.

(** C10, as stated, fails. The binding registered for [["count"]] returns
    the length of [client.getCalls()].  The two clients have the same
    registry and differ in [recordCalls] only; the call returns 1 on the
    recording one, whose log holds the record of the call when the binding
    runs, and 0 on the other. *)
Lemma log_reading_binding_sees_the_flag :
  let count : Reentrant.Binding :=
    fun _ => Reentrant.PGetCalls
               (fun l => Reentrant.PDone (Return (VNum (Z.of_nat (length l))))) in
  let on := Reentrant.mockImplementation ["count"] count
              (Reentrant.createMockClient (mkOptions None (Some true))) in
  let off := Reentrant.mockImplementation ["count"] count
               (Reentrant.createMockClient (mkOptions None (Some false))) in
  Reentrant.implementations on = Reentrant.implementations off ∧
  Reentrant.responses on = Reentrant.responses off ∧
  ∀ n, ∃ r_on r_off,
    Reentrant.callMock (S n) ["count"] VNull 0 on = Some r_on ∧
    Reentrant.callMock (S n) ["count"] VNull 0 off = Some r_off ∧
    Reentrant.result r_on = Return (VNum 1) ∧
    Reentrant.result r_off = Return (VNum 0) ∧
    Reentrant.result r_on ≠ Reentrant.result r_off.
Proof.
  intros count on off. split; [reflexivity|]. split; [reflexivity|].
  intros n. eexists _, _.
  split; [reflexivity|]. split; [reflexivity|].
  split; [reflexivity|]. split; [reflexivity|]. discriminate.
Qed.

(** C10, amended. For every registry configuration whose bindings do not
    read the call log, every address and every input, [call] on a client
    and on the same client of a non-recording engine either both lack a
    result in the embedding or complete with the same result after the
    same effects (timers, bindings run), and the two clients are again the
    same up to the flag and the log.  The flag only decides whether
    records are pushed: on the non-recording client the log is empty after
    the call, and this whatever the bindings do. *)
Theorem recordCalls_only_affects_log_blind fuel p i now c :
  (∀ r, Reentrant.callMock fuel p i now (Reentrant.without_recording c) = Some r →
        Reentrant.getCalls (Reentrant.final r) = [] ∧
        Reentrant.recordCalls (Reentrant.final r) = false) ∧
  (Reentrant.blind_registry c →
   match Reentrant.callMock fuel p i now c,
         Reentrant.callMock fuel p i now (Reentrant.without_recording c) with
   | Some r_on, Some r_off =>
       Reentrant.result r_off = Reentrant.result r_on ∧
       Reentrant.effects (Reentrant.trace r_off) =
         Reentrant.effects (Reentrant.trace r_on) ∧
       Reentrant.final r_off = Reentrant.without_recording (Reentrant.final r_on) ∧
       Reentrant.blind_registry (Reentrant.final r_on)
   | None, None => True
   | _, _ => False
   end).
Proof.
  split.
  - intros r Hr. unfold Reentrant.callMock in Hr.
    assert (Hs : Reentrant.silent
                   (Reentrant.spied_call p i (Reentrant.without_recording c)))
      by by split.
    destruct (executeCall_silent fuel p i now _ r Hs Hr) as [Hrc Hcalls].
    by split.
  - intros Hc.
    pose proof (executeCall_same_but_log fuel p i now
                  (Reentrant.spied_call p i c) Hc) as H.
    unfold Reentrant.callMock.
    change (Reentrant.spied_call p i (Reentrant.without_recording c))
      with (Reentrant.without_recording (Reentrant.spied_call p i c)).
    by destruct (Reentrant.executeCall fuel p i now (Reentrant.spied_call p i c))
      as [r_on|],
      (Reentrant.executeCall fuel p i now
         (Reentrant.without_recording (Reentrant.spied_call p i c))) as [r_off|].
Qed.

(** A binding that waits, registers a descriptor for another address from
    its input and returns what an invocation of that address gives. *)
Lemma recordCalls_only_affects_log_blind_witness :
  let relay : Reentrant.Binding :=
    fun v => Reentrant.PWait 5
               (Reentrant.PMockResponse ["x"] (mockOutput v)
                  (Reentrant.PCall ["x"] VNull 1 (fun r => Reentrant.PDone r))) in
  let on := Reentrant.mockImplementation ["relay"] relay
              (Reentrant.createMockClient (mkOptions None (Some true))) in
  let off := Reentrant.mockImplementation ["relay"] relay
               (Reentrant.createMockClient (mkOptions None (Some false))) in
  off = Reentrant.without_recording on ∧
  (∃ r_on, Reentrant.callMock 2 ["relay"] (VNum 7) 0 on = Some r_on ∧
           Reentrant.result r_on = Return (VNum 7) ∧
           length (Reentrant.getCalls (Reentrant.final r_on)) = 2) ∧
  (∃ r_off, Reentrant.callMock 2 ["relay"] (VNum 7) 0 off = Some r_off ∧
            Reentrant.getCalls (Reentrant.final r_off) = [] ∧
            Reentrant.recordCalls (Reentrant.final r_off) = false) ∧
  match Reentrant.callMock 2 ["relay"] (VNum 7) 0 on,
        Reentrant.callMock 2 ["relay"] (VNum 7) 0 (Reentrant.without_recording on) with
  | Some r_on, Some r_off =>
      Reentrant.result r_off = Reentrant.result r_on ∧
      Reentrant.effects (Reentrant.trace r_off) =
        Reentrant.effects (Reentrant.trace r_on) ∧
      Reentrant.final r_off = Reentrant.without_recording (Reentrant.final r_on) ∧
      Reentrant.blind_registry (Reentrant.final r_on)
  | None, None => True
  | _, _ => False
  end.
Proof.
  intros relay on off.
  destruct (recordCalls_only_affects_log_blind 2 ["relay"] (VNum 7) 0 on)
    as [Hsilent Hsame].
  split; [reflexivity|].
  split; [eexists; by repeat split|].
  split; [eexists; split; [reflexivity|]; by apply Hsilent|].
  apply Hsame.
  intros key g Hg v. subst on.
  unfold Reentrant.mockImplementation, Reentrant.set_implementations,
    Reentrant.createMockClient in Hg.
  cbn [Reentrant.implementations] in Hg.
  apply lookup_insert_Some in Hg as [[_ <-]|[_ Hg]].
  - subst relay. repeat constructor.
  - by rewrite lookup_empty in Hg.
Defined.

(** ** Bindings, the log and the registries *)

(** X6. A binding that completes at once on the given input, without
    using the client or a timer, gives the call its completion, a thrown
    value included: whatever descriptor is registered and whatever the
    default is, the events are the push (when recording) and the run of
    the binding, no timer is set, and the registries are unchanged. *)
Theorem binding_completion_is_verbatim n p (f : Reentrant.Binding) i now c r0 :
  Reentrant.implementations c !! pathToKey p = Some f →
  f i = Reentrant.PDone r0 →
  ∃ r, Reentrant.callMock (S n) p i now c = Some r ∧
       Reentrant.result r = r0 ∧
       Reentrant.trace r =
         (if Reentrant.recordCalls c
          then [EvPush {| path := p; input := i; timestamp := now |}] else []) ++
         [EvImpl (pathToKey p) i] ∧
       Reentrant.responses (Reentrant.final r) = Reentrant.responses c ∧
       Reentrant.implementations (Reentrant.final r) = Reentrant.implementations c.
Proof.
  intros Hf Hdone. unfold Reentrant.callMock. rewrite executeCall_S. cbv zeta.
  change (Reentrant.implementations (Reentrant.spied_call p i c))
    with (Reentrant.implementations c).
  rewrite Hf, Hdone. cbn [Reentrant.run_program mbind option_bind].
  eexists. split; [reflexivity|]. unfold Reentrant.after.
  cbn [Reentrant.trace Reentrant.result Reentrant.final].
  rewrite app_nil_r.
  change (Reentrant.recordCalls (Reentrant.spied_call p i c))
    with (Reentrant.recordCalls c).
  destruct (Reentrant.recordCalls c); by repeat split.
Qed.

Lemma binding_completion_is_verbatim_witness :
  let p := ["db"; "find"] in
  let f : Reentrant.Binding :=
    fun v => match v with
             | VStr _ => Reentrant.PDone (Throw (VObj [("code", VNum 404); ("arg", v)]))
             | _ => Reentrant.PWait 10 (Reentrant.PDone (Return v))
             end in
  let c := Reentrant.mockImplementation p f
             (Reentrant.mockResponse p (mockDelayed (VNum 1) 30)
                (Reentrant.createMockClient (mkOptions None None))) in
  ∃ r, Reentrant.callMock 1 p (VStr "id") 3 c = Some r ∧
       Reentrant.result r = Throw (VObj [("code", VNum 404); ("arg", VStr "id")]) ∧
       Reentrant.trace r =
         (if Reentrant.recordCalls c
          then [EvPush {| path := p; input := VStr "id"; timestamp := 3 |}]
          else []) ++
         [EvImpl (pathToKey p) (VStr "id")] ∧
       Reentrant.responses (Reentrant.final r) = Reentrant.responses c ∧
       Reentrant.implementations (Reentrant.final r) = Reentrant.implementations c.
Proof.
  intros p f c.
  apply (binding_completion_is_verbatim 0 p f (VStr "id") 3 c
           (Throw (VObj [("code", VNum 404); ("arg", VStr "id")])));
    reflexivity.
Defined.

(** X14. An invocation that resolves a descriptor writes to neither
    registry: when no binding is registered under the key of the path,
    [call], and [exec] with that path, leave both tables as they were. *)
Theorem descriptor_resolution_keeps_registries n p i i' now c :
  Reentrant.implementations c !! pathToKey p = None →
  (∃ r, Reentrant.callMock (S n) p i now c = Some r ∧
        Reentrant.responses (Reentrant.final r) = Reentrant.responses c ∧
        Reentrant.implementations (Reentrant.final r) = Reentrant.implementations c) ∧
  (∃ r, Reentrant.execMock (S n) (VArr p) i' now c = Some r ∧
        Reentrant.responses (Reentrant.final r) = Reentrant.responses c ∧
        Reentrant.implementations (Reentrant.final r) = Reentrant.implementations c).
Proof.
  intros Hf.
  unfold Reentrant.callMock, Reentrant.execMock, Reentrant.exec_body.
  rewrite !executeCall_S. cbv zeta.
  change (Reentrant.implementations (Reentrant.spied_call p i c))
    with (Reentrant.implementations c).
  change (Reentrant.implementations (Reentrant.spied_exec (VArr p) i' c))
    with (Reentrant.implementations c).
  change (Reentrant.recordCalls (Reentrant.spied_call p i c))
    with (Reentrant.recordCalls c).
  change (Reentrant.recordCalls (Reentrant.spied_exec (VArr p) i' c))
    with (Reentrant.recordCalls c).
  rewrite Hf.
  split; eexists; (split; [reflexivity|]);
    cbn [Reentrant.final]; by destruct (Reentrant.recordCalls c).
Qed.

Lemma descriptor_resolution_keeps_registries_witness :
  let p := ["fs"; "read"] in
  let c := Reentrant.mockImplementation ["other"]
             (fun _ => Reentrant.PReset (Reentrant.PDone (Return VNull)))
             (Reentrant.mockResponse p (mockError (inr "ENOENT"))
                (Reentrant.createMockClient (mkOptions None None))) in
  (∃ r, Reentrant.callMock 1 p VNull 0 c = Some r ∧
        Reentrant.responses (Reentrant.final r) = Reentrant.responses c ∧
        Reentrant.implementations (Reentrant.final r) = Reentrant.implementations c) ∧
  (∃ r, Reentrant.execMock 1 (VArr p) None 0 c = Some r ∧
        Reentrant.responses (Reentrant.final r) = Reentrant.responses c ∧
        Reentrant.implementations (Reentrant.final r) = Reentrant.implementations c).
Proof.
  intros p c.
  apply (descriptor_resolution_keeps_registries 0 p VNull None 0 c).
  reflexivity.
Defined.

(** X23. A binding runs after the push: a binding that reads
    [client.getCalls()] while it serves a call finds, on a recording
    client, the record of that very call as the last element of the log
    (and on a non-recording client the log as it was). *)
Theorem binding_sees_its_own_record n p i now (g : list MockCallRecord → completion) c :
  Reentrant.implementations c !! pathToKey p =
    Some (fun _ => Reentrant.PGetCalls (fun l => Reentrant.PDone (g l))) →
  ∃ r, Reentrant.callMock (S n) p i now c = Some r ∧
       Reentrant.result r =
         g (if Reentrant.recordCalls c
            then Reentrant.calls c ++ [{| path := p; input := i; timestamp := now |}]
            else Reentrant.calls c).
Proof.
  intros Hf. unfold Reentrant.callMock. rewrite executeCall_S. cbv zeta.
  change (Reentrant.implementations (Reentrant.spied_call p i c))
    with (Reentrant.implementations c).
  change (Reentrant.recordCalls (Reentrant.spied_call p i c))
    with (Reentrant.recordCalls c).
  rewrite Hf. cbn [Reentrant.run_program mbind option_bind].
  eexists. split; [reflexivity|].
  unfold Reentrant.after. cbn [Reentrant.result].
  by destruct (Reentrant.recordCalls c).
Qed.

Lemma binding_sees_its_own_record_witness :
  let g : list MockCallRecord → completion :=
    fun l => Return (VArr (default [] (path <$> last l))) in
  let c := Reentrant.mockImplementation ["who"]
             (fun _ => Reentrant.PGetCalls (fun l => Reentrant.PDone (g l)))
             (Reentrant.createMockClient (mkOptions None None)) in
  ∃ r, Reentrant.callMock 1 ["who"] VNull 9 c = Some r ∧
       Reentrant.result r =
         g (if Reentrant.recordCalls c
            then Reentrant.calls c ++ [{| path := ["who"]; input := VNull; timestamp := 9 |}]
            else Reentrant.calls c) ∧
       Reentrant.result r = Return (VArr ["who"]).
Proof.
  intros g c.
  destruct (binding_sees_its_own_record 0 ["who"] VNull 9 g c eq_refl)
    as (r & Hr & Hres).
  exists r. split; [exact Hr|]. split; [exact Hres|]. by rewrite Hres.
Defined.
